(** * Detection evaluation: a model of [dataset/SKU110K_fixed/evaluate_model.py]

    The script scores a trained detector against labelled images: it loads
    the YOLO label file of each image, converts the labels to corner boxes,
    asks the model for predicted boxes, pairs ground truth with predictions
    greedily by intersection-over-union, and averages the per-image
    precision and recall.

    Numbers.  Python and numpy floats are modelled by exact rationals
    ([Q]): every operation is the exact one, and the literal [1e-6] is the
    rational 1/1000000.  Rounding, the difference between the double
    precision of the ground-truth boxes and the single precision of the
    detections, and overflow are not modelled.  The two values a numpy
    division by zero produces ([inf], [nan]) are kept as separate
    constructors, since the matching loop compares them.  Equality of
    numbers is [Qeq] ([==]).  Python integers are [Z].

    What is proved of the value of a float expression is proved of its
    exact value.  The properties of the IoU and of the conversion of the
    labels stated below are those that rounding keeps: the sign of a
    value, a value that is exactly zero, an order between coordinates, a
    bound with a margin; the quotients of the metrics are quotients of
    small integers.

    The run.  The calls that can raise are the loading of the labels, the
    call of the model, the matching, and the print of the metrics line of
    an image, which comes after the image is counted; the other prints,
    [del] and [clear_memory] are taken not to raise.  An interruption by
    the user is an exception raised at the call of the model or at the
    print of the metrics line. *)

From stdpp Require Import base decidable list sets gmap strings.
From Stdlib Require Import ZArith QArith Lia Lqa Sorted.

#[local] Set Warnings "-clear-no-such-hyp".

Local Open Scope Z_scope.

(** ** Exceptions and results *)

(** The exceptions the evaluation can meet.  All but [KeyboardInterrupt]
    derive from Python's [Exception]. *)
Inductive exn : Type :=
  | ValueError
  | ZeroDivisionError
  | RuntimeError
  | KeyboardInterrupt.

Definition is_Exception (e : exn) : bool :=
  match e with
  | KeyboardInterrupt => false
  | _ => true
  end.

Inductive result (A : Type) : Type :=
  | Ok (a : A)
  | Raise (e : exn).
Arguments Ok {A} a.
Arguments Raise {A} e.

(** ** Numbers *)

Definition Qltb (a b : Q) : bool := negb (Qle_bool b a).

(** Python's [max(a, b)] keeps its first argument unless the second is
    strictly greater; [min(a, b)] keeps it unless the second is strictly
    smaller. *)
Definition py_max (a b : Q) : Q := if Qltb a b then b else a.
Definition py_min (a b : Q) : Q := if Qltb b a then b else a.

(** The value of a float expression: a rational, or what numpy returns for a
    division by zero. *)
Inductive pyfloat : Type :=
  | Finite (q : Q)
  | PosInf
  | NaN.

(** [a > b] on floats: every comparison with [nan] is false. *)
Definition py_gt (a b : pyfloat) : bool :=
  match a, b with
  | Finite p, Finite q => Qltb q p
  | PosInf, Finite _ => true
  | _, _ => false
  end.

(** [a == b] on floats. *)
Definition py_eq (a b : pyfloat) : bool :=
  match a, b with
  | Finite p, Finite q => Qeq_bool p q
  | PosInf, PosInf => true
  | _, _ => false
  end.

(** ** Boxes *)

(** A box [[x1, y1, x2, y2]]. *)
Record box : Type := Box { x1 : Q; y1 : Q; x2 : Q; y2 : Q }.

(** The data model's invariant on a bounding box. *)
Definition well_formed (b : box) : Prop :=
  (x1 b <= x2 b)%Q /\ (y1 b <= y2 b)%Q.

Definition area (b : box) : Q := ((x2 b - x1 b) * (y2 b - y1 b))%Q.

Definition eps : Q := 1 # 1000000.

(** [compute_iou].  [max(0, v)] is the numpy scalar [v] when [v > 0] and the
    Python integer [0] otherwise, so [interArea] is a Python integer exactly
    when both clamps are [0]; then a zero divisor raises
    [ZeroDivisionError].  When [interArea] is a numpy scalar, numpy divides
    by zero with a warning and returns [inf] (numerator positive) or [nan]
    (numerator zero); [interArea] is never negative. *)
Definition compute_iou (boxA boxB : box) : result pyfloat :=
  let xA := py_max (x1 boxA) (x1 boxB) in
  let yA := py_max (y1 boxA) (y1 boxB) in
  let xB := py_min (x2 boxA) (x2 boxB) in
  let yB := py_min (y2 boxA) (y2 boxB) in
  let interArea := (py_max 0 (xB - xA) * py_max 0 (yB - yA))%Q in
  let boxAArea := ((x2 boxA - x1 boxA) * (y2 boxA - y1 boxA))%Q in
  let boxBArea := ((x2 boxB - x1 boxB) * (y2 boxB - y1 boxB))%Q in
  let divisor := (boxAArea + boxBArea - interArea + eps)%Q in
  if Qeq_bool divisor 0 then
    if Qltb 0 (xB - xA) || Qltb 0 (yB - yA) then
      Ok (if Qeq_bool interArea 0 then NaN else PosInf)
    else Raise ZeroDivisionError
  else Ok (Finite (interArea / divisor)).

(** The last steps of [compute_iou], from the sides [w], [h] of the overlap
    rectangle (before clamping) and the sum [s] of the two areas. *)
Definition iou_of (w h s : Q) : result pyfloat :=
  let interArea := (py_max 0 w * py_max 0 h)%Q in
  let divisor := (s - interArea + eps)%Q in
  if Qeq_bool divisor 0 then
    if Qltb 0 w || Qltb 0 h then
      Ok (if Qeq_bool interArea 0 then NaN else PosInf)
    else Raise ZeroDivisionError
  else Ok (Finite (interArea / divisor)).

(** The area of the overlap rectangle of two boxes, as [compute_iou]
    computes it. *)
Definition intersection (a b : box) : Q :=
  (py_max 0 (py_min (x2 a) (x2 b) - py_max (x1 a) (x1 b))
   * py_max 0 (py_min (y2 a) (y2 b) - py_max (y1 a) (y1 b)))%Q.

(** The boxes do not overlap in at least one axis. *)
Definition apart (a b : box) : Prop :=
  (x2 a <= x1 b)%Q \/ (x2 b <= x1 a)%Q \/ (y2 a <= y1 b)%Q \/ (y2 b <= y1 a)%Q.

(** The boxes have the same coordinates. *)
Definition same_box (a b : box) : Prop :=
  (x1 a == x1 b)%Q /\ (y1 a == y1 b)%Q /\ (x2 a == x2 b)%Q /\ (y2 a == y2 b)%Q.

(** Coordinates of at most [2^62] in absolute value, as pixel coordinates
    are: in this range no operation of [compute_iou] overflows, in single
    or in double precision. *)
Definition in_range (b : box) : Prop :=
  let bound := inject_Z (2 ^ 62) in
  (- bound <= x1 b)%Q /\ (x1 b <= bound)%Q
  /\ (- bound <= y1 b)%Q /\ (y1 b <= bound)%Q
  /\ (- bound <= x2 b)%Q /\ (x2 b <= bound)%Q
  /\ (- bound <= y2 b)%Q /\ (y2 b <= bound)%Q.

(** ** Label files *)

(** One whitespace-separated field of a label line, as [float()] sees it: a
    field it converts (with the value) or a field it rejects (with the
    text).  Fields that read as an infinity or as not-a-number have no
    rational value and are left out. *)
Inductive field : Type :=
  | Number (v : Q)
  | Text (s : string).

Definition float (f : field) : result Q :=
  match f with
  | Number v => Ok v
  | Text _ => Raise ValueError
  end.

(** [map(float, parts)], consumed from left to right. *)
Fixpoint map_float (parts : list field) : result (list Q) :=
  match parts with
  | [] => Ok []
  | f :: rest =>
      match float f with
      | Raise e => Raise e
      | Ok v =>
          match map_float rest with
          | Raise e => Raise e
          | Ok vs => Ok (v :: vs)
          end
      end
  end.

(** A label row [[cls, x, y, w, h]]. *)
Record label : Type := Label { cls : Q; cx : Q; cy : Q; lw : Q; lh : Q }.

(** [cls, x, y, w, h = map(float, parts)]: the unpacking raises [ValueError]
    unless the iterator yields exactly five values. *)
Definition unpack_label (parts : list field) : result label :=
  match map_float parts with
  | Raise e => Raise e
  | Ok [c; x; y; w; h] => Ok (Label c x y w h)
  | Ok _ => Raise ValueError
  end.

(** The loop of [load_labels] over the lines of the file, each line already
    stripped and split into its fields; [labels] is the list built so far. *)
Fixpoint load_lines (lines : list (list field)) (labels : list label)
  : result (list label) :=
  match lines with
  | [] => Ok labels
  | parts :: rest =>
      if 5 <=? Z.of_nat (length parts) then
        match unpack_label parts with
        | Raise e => Raise e
        | Ok row => load_lines rest (labels ++ [row])
        end
      else load_lines rest labels
  end.

Definition load_labels (lines : list (list field)) : result (list label) :=
  load_lines lines [].

(** [yolo_to_xyxy]: centre form to corner form, for an image of [img_w] by
    [img_h] pixels. *)
Definition yolo_to_xyxy (labels : list label) (img_w img_h : Z) : list box :=
  map (fun l =>
         Box ((cx l - lw l / 2) * inject_Z img_w)
             ((cy l - lh l / 2) * inject_Z img_h)
             ((cx l + lw l / 2) * inject_Z img_w)
             ((cy l + lh l / 2) * inject_Z img_h))%Q
      labels.

(** ** Greedy matching *)

Definition iou_threshold : pyfloat := Finite (1 # 2).

(** The inner loop [for j, pred_box in enumerate(pred_boxes)], entered at
    index [j] with the current [best_iou] and [best_pred]. *)
Fixpoint scan_preds (gt_box : box) (used_pred : gset Z) (j : Z)
    (pred_boxes : list box) (best_iou : pyfloat) (best_pred : Z)
  : result (pyfloat * Z) :=
  match pred_boxes with
  | [] => Ok (best_iou, best_pred)
  | pred_box :: rest =>
      if decide (j ∈ used_pred) then
        scan_preds gt_box used_pred (j + 1) rest best_iou best_pred
      else
        match compute_iou gt_box pred_box with
        | Raise e => Raise e
        | Ok iou =>
            if py_gt iou best_iou then
              scan_preds gt_box used_pred (j + 1) rest iou j
            else
              scan_preds gt_box used_pred (j + 1) rest best_iou best_pred
        end
  end.

(** The outer loop [for i, gt_box in enumerate(gt_boxes)], entered at index
    [i] with the current [matches] and [used_pred]. *)
Fixpoint match_loop (i : Z) (gt_boxes pred_boxes : list box)
    (matches : list (Z * Z)) (used_pred : gset Z)
  : result (list (Z * Z) * gset Z) :=
  match gt_boxes with
  | [] => Ok (matches, used_pred)
  | gt_box :: rest =>
      match scan_preds gt_box used_pred 0 pred_boxes (Finite 0) (-1) with
      | Raise e => Raise e
      | Ok (best_iou, best_pred) =>
          if py_gt best_iou iou_threshold then
            match_loop (i + 1) rest pred_boxes
              (matches ++ [(i, best_pred)]) (used_pred ∪ {[best_pred]})
          else
            match_loop (i + 1) rest pred_boxes matches used_pred
      end
  end.

Definition match_boxes (gt_boxes pred_boxes : list box)
  : result (list (Z * Z)) :=
  match match_loop 0 gt_boxes pred_boxes [] ∅ with
  | Raise e => Raise e
  | Ok (matches, _) => Ok matches
  end.

(** ** The matching rule, as a relation *)

(** [a >= b] on floats. *)
Definition py_ge (a b : pyfloat) : bool := py_gt a b || py_eq a b.

(** Detection number [k] of [pred_boxes] is not used yet, and its IoU with
    [gt_box] is [v]. *)
Definition candidate (gt_box : box) (used_pred : gset Z)
    (pred_boxes : list box) (k : nat) (v : pyfloat) : Prop :=
  exists pred_box,
    pred_boxes !! k = Some pred_box
    /\ (Z.of_nat k ∉ used_pred)
    /\ compute_iou gt_box pred_box = Ok v.

(** Detection number [k] has the highest IoU [v] among the detections not
    used yet, and is the first one in list order to reach it. *)
Definition best_candidate (gt_box : box) (used_pred : gset Z)
    (pred_boxes : list box) (k : nat) (v : pyfloat) : Prop :=
  candidate gt_box used_pred pred_boxes k v
  /\ (forall k' w, candidate gt_box used_pred pred_boxes k' w ->
                   py_gt w v = false)
  /\ (forall k' w, candidate gt_box used_pred pred_boxes k' w ->
                   (k' < k)%nat -> py_ge w v = false).

(** The matches the greedy rule gives to the ground-truth boxes numbered
    from [i] on, when the detections in [used_pred] are taken: a box whose
    best candidate has an IoU above the threshold takes that detection,
    which is then used; a box none of whose candidates is above the
    threshold gets no match. *)
Inductive greedy (pred_boxes : list box)
  : Z -> list box -> gset Z -> list (Z * Z) -> Prop :=
  | greedy_end i used_pred :
      greedy pred_boxes i [] used_pred []
  | greedy_match i gt_box rest used_pred k v matches :
      best_candidate gt_box used_pred pred_boxes k v ->
      py_gt v iou_threshold = true ->
      greedy pred_boxes (i + 1) rest (used_pred ∪ {[Z.of_nat k]}) matches ->
      greedy pred_boxes i (gt_box :: rest) used_pred
        ((i, Z.of_nat k) :: matches)
  | greedy_unmatched i gt_box rest used_pred matches :
      (forall k w, candidate gt_box used_pred pred_boxes k w ->
                   py_gt w iou_threshold = false) ->
      greedy pred_boxes (i + 1) rest used_pred matches ->
      greedy pred_boxes i (gt_box :: rest) used_pred matches.

(** ** Per-image metrics *)

Definition len {A : Type} (l : list A) : Z := Z.of_nat (length l).

(** [n / d] for two Python integers, [d] not zero. *)
Definition int_div (n d : Z) : Q := (inject_Z n / inject_Z d)%Q.

Record metrics : Type :=
  Metrics { tp : Z; fp : Z; fn : Z; precision : Q; recall : Q }.

Definition image_metrics (G P M : Z) : metrics :=
  let tp := M in
  let fp := P - tp in
  let fn := G - tp in
  Metrics tp fp fn
    (if 0 <? tp + fp then int_div tp (tp + fp) else 0%Q)
    (if 0 <? tp + fn then int_div tp (tp + fn) else 0%Q).

(** ** The evaluation run *)

(** What the run does that can be observed: the lines it prints and its
    calls of [clear_memory]. *)
Inductive event : Type :=
  | ClearMemory
  | BatchHeader (current_batch total_batches : Z)
  | NoLabel (image_name : string)
  | EmptyLabel (image_name : string)
  | ReadFailure (image_name : string)
  | NoPrediction (image_name : string)
  | ImageLine (image_name : string) (m : metrics)
  | ImageError (image_name : string) (e : exn)
  | Interrupted
  | Means (mean_precision mean_recall : Q)
  | NoValidImage
  | Concluded.

(** The variables of the script, and what it has done so far. *)
Record state : Type := State {
  all_precisions : list Q;
  all_recalls : list Q;
  valid_images : Z;
  trace : list event
}.

Definition emit (ev : event) (st : state) : state :=
  State (all_precisions st) (all_recalls st) (valid_images st)
        (trace st ++ [ev]).

Definition clear_memory (st : state) : state := emit ClearMemory st.

(** What the file system, OpenCV, the model and the console hold for one
    image path: the lines of [labels/val/<stem>.txt] when that file exists,
    the [(height, width)] of the decoded image unless [cv2.imread] returns
    [None], the boxes the model predicts, or the exception its call raises,
    and the exception that the printing of the metrics line of the image
    raises, if it raises one (a [UnicodeEncodeError], which is a
    [ValueError], on a console that cannot encode the arrow of that line;
    a [KeyboardInterrupt] that arrives at that moment). *)
Record image : Type := Image {
  name : string;
  label_file : option (list (list field));
  imread : option (Z * Z);
  model : result (list box);
  line_print : option exn
}.

(** How the body of the [try] of one image ends: it runs to its end or to
    a [continue], or a statement raises; either way the variables of the
    script are left in some state. *)
Inductive attempt : Type :=
  | Done (st : state)
  | Failed (st : state) (e : exn).

Definition attempt_state (a : attempt) : state :=
  match a with
  | Done st => st
  | Failed st _ => st
  end.

(** The body of the [try] of one image.  The statements that can raise
    are the loading of the labels, the call of the model, the matching,
    and, after the three assignments, the printing of the metrics line;
    the other prints, [del] and [clear_memory] are taken not to raise.
    An exception of the first three leaves [st] as it was; an exception of
    the print finds the lists extended and the counter incremented. *)
Definition evaluate_image (st : state) (im : image) : attempt :=
  match label_file im with
  | None => Done (emit (NoLabel (name im)) st)
  | Some lines =>
      match load_labels lines with
      | Raise e => Failed st e
      | Ok gt_labels =>
          if len gt_labels =? 0 then Done (emit (EmptyLabel (name im)) st)
          else
            match imread im with
            | None => Done (emit (ReadFailure (name im)) st)
            | Some (img_h, img_w) =>
                let gt_boxes := yolo_to_xyxy gt_labels img_w img_h in
                match model im with
                | Raise e => Failed st e
                | Ok pred_boxes =>
                    if len pred_boxes =? 0 then
                      let st := emit (NoPrediction (name im)) st in
                      Done (State (all_precisions st ++ [0%Q])
                                  (all_recalls st ++ [0%Q])
                                  (valid_images st) (trace st))
                    else
                      match match_boxes gt_boxes pred_boxes with
                      | Raise e => Failed st e
                      | Ok matches =>
                          let m := image_metrics (len gt_boxes)
                                     (len pred_boxes) (len matches) in
                          let st := State (all_precisions st ++ [precision m])
                                          (all_recalls st ++ [recall m])
                                          (valid_images st + 1) (trace st) in
                          match line_print im with
                          | Some e => Failed st e
                          | None =>
                              let st := emit (ImageLine (name im) m) st in
                              Done (clear_memory st)
                          end
                      end
                end
            end
      end
  end.

(** How a loop ends: it ran to its end, or a [KeyboardInterrupt] is
    travelling up to the outer [try]. *)
Inductive flow : Type :=
  | Completed (st : state)
  | Interrupt (st : state).

(** One image with its [except Exception] handler. *)
Definition process_image (st : state) (im : image) : flow :=
  match evaluate_image st im with
  | Done st' => Completed st'
  | Failed st' e =>
      if is_Exception e then Completed (emit (ImageError (name im) e) st')
      else Interrupt st'
  end.

(** [for image_path in batch_paths]. *)
Fixpoint image_loop (st : state) (batch_paths : list image) : flow :=
  match batch_paths with
  | [] => Completed st
  | im :: rest =>
      match process_image st im with
      | Completed st' => image_loop st' rest
      | Interrupt st' => Interrupt st'
      end
  end.

Definition batch_size : nat := 5.

(** [range(0, stop, step)]. *)
Definition range_step (stop step : nat) : list nat :=
  map (fun k => (k * step)%nat) (seq 0 ((stop + step - 1) / step)%nat).

(** The body of the batch loop for the batch that starts at [batch_idx]. *)
Definition process_batch (image_paths : list image) (total_batches : Z)
    (st : state) (batch_idx : nat) : flow :=
  let st := clear_memory st in
  let batch_paths := take batch_size (drop batch_idx image_paths) in
  let current_batch := Z.of_nat (batch_idx / batch_size) + 1 in
  let st := emit (BatchHeader current_batch total_batches) st in
  match image_loop st batch_paths with
  | Completed st' => Completed (clear_memory st')
  | Interrupt st' => Interrupt st'
  end.

(** [for batch_idx in range(0, len(image_paths), batch_size)]. *)
Fixpoint batch_loop (image_paths : list image) (total_batches : Z)
    (st : state) (indices : list nat) : flow :=
  match indices with
  | [] => Completed st
  | batch_idx :: rest =>
      match process_batch image_paths total_batches st batch_idx with
      | Completed st' => batch_loop image_paths total_batches st' rest
      | Interrupt st' => Interrupt st'
      end
  end.

(** Python's [sum]: from the left, starting at [0]. *)
Definition sum (l : list Q) : Q := fold_left Qplus l 0%Q.

(** The [finally] block. *)
Definition finalize (st : state) : state :=
  let st :=
    if 0 <? valid_images st then
      let mean_precision :=
        (sum (all_precisions st) / inject_Z (len (all_precisions st)))%Q in
      let mean_recall :=
        (sum (all_recalls st) / inject_Z (len (all_recalls st)))%Q in
      emit (Means mean_precision mean_recall) st
    else emit NoValidImage st in
  emit Concluded st.

Definition initial : state := State [] [] 0 [].

(** The outer [try ... except KeyboardInterrupt ... finally] over a
    non-empty list of image paths. *)
Definition evaluate (image_paths : list image) : state :=
  let total_batches :=
    (len image_paths + Z.of_nat batch_size - 1) / Z.of_nat batch_size in
  let indices := range_step (length image_paths) batch_size in
  match batch_loop image_paths total_batches initial indices with
  | Completed st => finalize st
  | Interrupt st => finalize (emit Interrupted st)
  end.

(** The script from the listing of the images on: it leaves with
    [exit(1)] when the directory holds no image. *)
Definition script (image_paths : list image) : option state :=
  match image_paths with
  | [] => None
  | _ => Some (evaluate image_paths)
  end.

(** ** Reading a run *)

(** The state reached from [st] by a step that, started from [initial],
    reaches [d]: the step only appends to the lists and to the trace and
    adds to the counter. *)
Definition combine (st d : state) : state :=
  State (all_precisions st ++ all_precisions d)
        (all_recalls st ++ all_recalls d)
        (valid_images st + valid_images d)
        (trace st ++ trace d).

Definition flow_state (f : flow) : state :=
  match f with
  | Completed st => st
  | Interrupt st => st
  end.

Definition flow_map (g : state -> state) (f : flow) : flow :=
  match f with
  | Completed st => Completed (g st)
  | Interrupt st => Interrupt (g st)
  end.

(** The three variables that the final report reads. *)
Definition tally (st : state) : list Q * list Q * Z :=
  (all_precisions st, all_recalls st, valid_images st).

(** The line that ends the processing of one image. *)
Definition is_image_event (ev : event) : bool :=
  match ev with
  | NoLabel _ | EmptyLabel _ | ReadFailure _ | NoPrediction _
  | ImageLine _ _ | ImageError _ _ => true
  | _ => false
  end.

(** The lines of the [finally] block. *)
Definition is_final_event (ev : event) : bool :=
  match ev with
  | Means _ _ | NoValidImage | Concluded => true
  | _ => false
  end.

Definition image_events (tr : list event) : list event :=
  filter (fun ev => is_image_event ev = true) tr.

Definition final_events (tr : list event) : list event :=
  filter (fun ev => is_final_event ev = true) tr.

(** The state without the lines of its trace that do not end an image. *)
Definition essence (st : state) : state :=
  State (all_precisions st) (all_recalls st) (valid_images st)
        (image_events (trace st)).

(** The batches the batch loop cuts the image list into. *)
Definition batches (image_paths : list image) : list (list image) :=
  map (fun batch_idx => take batch_size (drop batch_idx image_paths))
      (range_step (length image_paths) batch_size).

(** Every counted image has its entry in both lists. *)
Definition counted (st : state) : Prop :=
  0 <= valid_images st <= len (all_precisions st)
  /\ len (all_recalls st) = len (all_precisions st).

(** The image is being processed when the user interrupts the run. *)
Definition interrupted (im : image) : bool :=
  match evaluate_image initial im with
  | Failed _ e => negb (is_Exception e)
  | Done _ => false
  end.

(** The line that the processing of [im] ends with, when it is not
    interrupted. *)
Definition outcome_event (im : image) : event :=
  match evaluate_image initial im with
  | Done d => hd Concluded (trace d)
  | Failed _ e => ImageError (name im) e
  end.

(** In the trace, every line that ends an image is directly followed by a
    call of [clear_memory]. *)
Fixpoint cleared_after_images (tr : list event) : bool :=
  match tr with
  | [] => true
  | ev :: rest =>
      (if is_image_event ev
       then match rest with
            | ClearMemory :: _ => true
            | _ => false
            end
       else true)
      && cleared_after_images rest
  end.

(** The label row of a record of exactly five numeric fields. *)
Definition parse_record (parts : list field) : option label :=
  match parts with
  | [Number c; Number x; Number y; Number w; Number h] =>
      Some (Label c x y w h)
  | _ => None
  end.

(** A record the loader accepts or drops: fewer than five fields, or
    exactly five numeric fields. *)
Definition clean_record (parts : list field) : Prop :=
  (length parts < 5)%nat \/ is_Some (parse_record parts).

(** A record of five fields, one of which is not numeric. *)
Definition non_numeric_record (parts : list field) : Prop :=
  length parts = 5%nat /\ exists s, Text s ∈ parts.

(** ** Sample inputs *)

Definition centre_label : list field :=
  [Number 0; Number (1 # 2); Number (1 # 2); Number (1 # 5); Number (1 # 5)].

Definition text_label : list field :=
  [Number 0; Number (1 # 2); Text "abc"; Number (1 # 5); Number (1 # 5)].

(** An image whose one ground-truth box the model finds exactly. *)
Definition found_image (n : string) : image :=
  Image n (Some [centre_label]) (Some (100, 100)) (Ok [Box 40 40 60 60])
    None.

(** An image with one ground-truth box and no detection. *)
Definition undetected_image (n : string) : image :=
  Image n (Some [centre_label]) (Some (100, 100)) (Ok []) None.

(** An image without a label file. *)
Definition unlabelled_image (n : string) : image :=
  Image n None (Some (100, 100)) (Ok [Box 40 40 60 60]) None.

(** An image on which the model call raises. *)
Definition failing_image (n : string) : image :=
  Image n (Some [centre_label]) (Some (100, 100)) (Raise RuntimeError) None.

(** An image whose label file has no record. *)
Definition empty_image (n : string) : image :=
  Image n (Some []) (Some (100, 100)) (Ok [Box 40 40 60 60]) None.

(** An image that cannot be decoded. *)
Definition unreadable_image (n : string) : image :=
  Image n (Some [centre_label]) None (Ok [Box 40 40 60 60]) None.

(** An image whose one ground-truth box the model finds, beside a second
    detection elsewhere (precision 1/2, recall 1), and whose metrics line
    cannot be printed. *)
Definition garbled_image (n : string) : image :=
  Image n (Some [centre_label]) (Some (100, 100))
    (Ok [Box 40 40 60 60; Box 70 70 90 90]) (Some ValueError).

(** ** Further readings of labels and boxes *)

(** A label whose width and height are not negative. *)
Definition nonneg_label (l : label) : Prop := (0 <= lw l)%Q /\ (0 <= lh l)%Q.

(** The boxes share some area: on each axis every lower edge is strictly
    below every upper edge. *)
Definition share_area (a b : box) : Prop :=
  ((x1 a < x2 a)%Q /\ (x1 a < x2 b)%Q /\ (x1 b < x2 a)%Q /\ (x1 b < x2 b)%Q)
  /\ ((y1 a < y2 a)%Q /\ (y1 a < y2 b)%Q
      /\ (y1 b < y2 a)%Q /\ (y1 b < y2 b)%Q).

(** ** Further readings of a run *)

(** The image is skipped: it has no label file, or its label file gives no
    label, or it cannot be decoded (its labels being loaded without an
    exception). *)
Definition skipped (im : image) : Prop :=
  label_file im = None
  \/ (exists lines, label_file im = Some lines /\ load_labels lines = Ok [])
  \/ (exists lines gt_labels,
        label_file im = Some lines /\ load_labels lines = Ok gt_labels
        /\ imread im = None).

Definition is_image_line (ev : event) : bool :=
  match ev with
  | ImageLine _ _ => true
  | _ => false
  end.

Definition unit_interval (q : Q) : Prop := (0 <= q)%Q /\ (q <= 1)%Q.

(** What the processing of one image adds to the trace. *)
Definition image_lines (im : image) : list event :=
  trace (flow_state (process_image initial im)).

(** What the batch number [k] (counted from 0) of [total_batches] adds to
    the trace when it is not interrupted. *)
Definition batch_lines (total_batches : Z) (k : nat)
    (batch_paths : list image) : list event :=
  [ClearMemory; BatchHeader (Z.of_nat k + 1) total_batches]
  ++ concat (map image_lines batch_paths) ++ [ClearMemory].

(** The report of the [finally] block for the variables of [st]. *)
Definition report (st : state) : event :=
  if 0 <? valid_images st
  then Means (sum (all_precisions st) / inject_Z (len (all_precisions st)))
             (sum (all_recalls st) / inject_Z (len (all_recalls st)))
  else NoValidImage.

(** A record the loader fails on: at least five fields, and not exactly
    five numeric ones. *)
Definition rejected_record (parts : list field) : Prop :=
  (5 <= length parts)%nat /\ parse_record parts = None.

(** The image [im] with another behaviour of the print of its metrics
    line. *)
Definition with_line_print (p : option exn) (im : image) : image :=
  Image (name im) (label_file im) (imread im) (model im) p.

(** The numbers of a list added to [acc], one after the other from the
    first. *)
Fixpoint total_from (acc : Q) (l : list Q) : Q :=
  match l with
  | [] => acc
  | q :: rest => total_from (acc + q)%Q rest
  end.

(** The arithmetic mean of a list of numbers: their total by their
    number. *)
Definition arithmetic_mean (l : list Q) : Q :=
  (total_from 0 l / inject_Z (len l))%Q.

(** * Properties *)

(** ** Rational comparisons *)

Lemma Qltb_lt (a b : Q) : Qltb a b = true <-> (a < b)%Q.
Proof.
  unfold Qltb. rewrite negb_true_iff. split.
  - intros H. apply Qnot_le_lt. intros Hle.
    apply Qle_bool_iff in Hle. congruence.
  - intros H. destruct (Qle_bool b a) eqn:E; [|reflexivity].
    apply Qle_bool_iff in E. lra.
Qed.

Lemma Qltb_ge (a b : Q) : Qltb a b = false <-> (b <= a)%Q.
Proof.
  unfold Qltb. rewrite negb_false_iff. apply Qle_bool_iff.
Qed.

Lemma Qeq_bool_false (a b : Q) : Qeq_bool a b = false <-> ~ (a == b)%Q.
Proof.
  split.
  - intros H E. apply Qeq_bool_iff in E. congruence.
  - intros H. destruct (Qeq_bool a b) eqn:E; [|reflexivity].
    apply Qeq_bool_iff in E. contradiction.
Qed.

Ltac qcases :=
  repeat match goal with
    | H : Qltb _ _ = true |- _ => apply Qltb_lt in H
    | H : Qltb _ _ = false |- _ => apply Qltb_ge in H
    | H : Qeq_bool _ _ = true |- _ => apply Qeq_bool_iff in H
    | H : Qeq_bool _ _ = false |- _ => apply Qeq_bool_false in H
    end.

Lemma py_max_cases (a b : Q) :
  ((a < b)%Q /\ py_max a b = b) \/ ((b <= a)%Q /\ py_max a b = a).
Proof.
  unfold py_max. destruct (Qltb a b) eqn:E; qcases; auto.
Qed.

Lemma py_min_cases (a b : Q) :
  ((b < a)%Q /\ py_min a b = b) \/ ((a <= b)%Q /\ py_min a b = a).
Proof.
  unfold py_min. destruct (Qltb b a) eqn:E; qcases; auto.
Qed.

Lemma py_max_0_nonneg (v : Q) : (0 <= py_max 0 v)%Q.
Proof. destruct (py_max_cases 0 v) as [[? ->]|[? ->]]; lra. Qed.

(** ** Intersection over union *)

Lemma compute_iou_unfold (a b : box) :
  compute_iou a b =
  iou_of (py_min (x2 a) (x2 b) - py_max (x1 a) (x1 b))
         (py_min (y2 a) (y2 b) - py_max (y1 a) (y1 b))
         (area a + area b).
Proof. reflexivity. Qed.

Lemma overlap_side_bounds (lo hi lo' hi' : Q) :
  (lo <= hi)%Q -> (lo' <= hi')%Q ->
  (0 <= py_max 0 (py_min hi hi' - py_max lo lo'))%Q
  /\ (py_max 0 (py_min hi hi' - py_max lo lo') <= hi - lo)%Q
  /\ (py_max 0 (py_min hi hi' - py_max lo lo') <= hi' - lo')%Q.
Proof.
  intros H H'.
  destruct (py_min_cases hi hi') as [[? ->]|[? ->]],
           (py_max_cases lo lo') as [[? ->]|[? ->]];
    match goal with
    | |- context [py_max 0 ?v] =>
        destruct (py_max_cases 0 v) as [[? ->]|[? ->]]
    end; repeat split; lra.
Qed.

Lemma Qmult_le_bounds (p q P' Q' : Q) :
  (0 <= p)%Q -> (p <= P')%Q -> (0 <= q)%Q -> (q <= Q')%Q ->
  (p * q <= P' * Q')%Q.
Proof.
  intros Hp HpP Hq HqQ.
  apply Qle_trans with (p * Q')%Q.
  - rewrite (Qmult_comm p q), (Qmult_comm p Q').
    apply Qmult_le_compat_r; assumption.
  - apply Qmult_le_compat_r; lra.
Qed.

Lemma intersection_bounds (a b : box) :
  well_formed a -> well_formed b ->
  (0 <= intersection a b)%Q
  /\ (intersection a b <= area a)%Q /\ (intersection a b <= area b)%Q.
Proof.
  intros [Hax Hay] [Hbx Hby]. unfold intersection, area.
  destruct (overlap_side_bounds _ _ _ _ Hax Hbx) as (Hw0 & Hwa & Hwb).
  destruct (overlap_side_bounds _ _ _ _ Hay Hby) as (Hh0 & Hha & Hhb).
  repeat split.
  - apply Qmult_le_0_compat; assumption.
  - apply Qmult_le_bounds; assumption.
  - apply Qmult_le_bounds; assumption.
Qed.

(** On boxes that satisfy the invariant the divisor is positive, and the
    IoU is the rational quotient. *)
Lemma compute_iou_well_formed (a b : box) :
  well_formed a -> well_formed b ->
  compute_iou a b
  = Ok (Finite (intersection a b
                / (area a + area b - intersection a b + eps))).
Proof.
  intros Ha Hb.
  destruct (intersection_bounds a b Ha Hb) as (H0 & H1 & H2).
  rewrite compute_iou_unfold. unfold iou_of.
  fold (intersection a b).
  destruct (Qeq_bool (area a + area b - intersection a b + eps) 0) eqn:E;
    [|reflexivity].
  qcases. unfold eps in E. exfalso. lra.
Qed.

Lemma intersection_apart (a b : box) :
  well_formed a -> well_formed b -> apart a b ->
  (intersection a b == 0)%Q.
Proof.
  intros [Hax Hay] [Hbx Hby] Hapart. unfold intersection.
  destruct (py_min_cases (x2 a) (x2 b)) as [[? ->]|[? ->]],
           (py_max_cases (x1 a) (x1 b)) as [[? ->]|[? ->]],
           (py_min_cases (y2 a) (y2 b)) as [[? ->]|[? ->]],
           (py_max_cases (y1 a) (y1 b)) as [[? ->]|[? ->]];
    match goal with
    | |- (py_max 0 ?w * py_max 0 ?h == 0)%Q =>
        destruct (py_max_cases 0 w) as [[? ->]|[? ->]],
                 (py_max_cases 0 h) as [[? ->]|[? ->]]
    end;
    try ring; exfalso; destruct Hapart as [?|[?|[?|?]]]; lra.
Qed.

Lemma intersection_same_box (a b : box) :
  well_formed a -> same_box a b -> (intersection a b == area a)%Q.
Proof.
  intros [Hax Hay] (E1 & E2 & E3 & E4). unfold intersection, area.
  assert (Hw : (py_max 0 (py_min (x2 a) (x2 b) - py_max (x1 a) (x1 b))
                == x2 a - x1 a)%Q).
  { destruct (py_min_cases (x2 a) (x2 b)) as [[? ->]|[? ->]],
             (py_max_cases (x1 a) (x1 b)) as [[? ->]|[? ->]];
      match goal with
      | |- (py_max 0 ?w == _)%Q =>
          destruct (py_max_cases 0 w) as [[? ->]|[? ->]]
      end; lra. }
  assert (Hh : (py_max 0 (py_min (y2 a) (y2 b) - py_max (y1 a) (y1 b))
                == y2 a - y1 a)%Q).
  { destruct (py_min_cases (y2 a) (y2 b)) as [[? ->]|[? ->]],
             (py_max_cases (y1 a) (y1 b)) as [[? ->]|[? ->]];
      match goal with
      | |- (py_max 0 ?w == _)%Q =>
          destruct (py_max_cases 0 w) as [[? ->]|[? ->]]
      end; lra. }
  rewrite Hw, Hh. reflexivity.
Qed.

Lemma area_same_box (a b : box) : same_box a b -> (area b == area a)%Q.
Proof.
  intros (E1 & E2 & E3 & E4). unfold area. rewrite E1, E2, E3, E4.
  reflexivity.
Qed.

(** C7, as the code has it.  For two boxes with [x1 <= x2] and [y1 <= y2]
    and coordinates in the range where nothing overflows, the IoU is a
    number, not an exception nor a special value, and it is not negative; it
    is 0 when the boxes do not overlap in some axis; and for two boxes with
    the same coordinates and an area of at least 1 it is at least 0.99.  It
    need not be 1 then: the divisor carries the added [1e-6]. *)
Theorem compute_iou_range (a b : box) :
  well_formed a -> well_formed b -> in_range a -> in_range b ->
  exists q : Q,
    compute_iou a b = Ok (Finite q)
    /\ (0 <= q)%Q
    /\ (apart a b -> (q == 0)%Q)
    /\ (same_box a b -> (1 <= area a)%Q -> (99 # 100 <= q)%Q).
Proof.
  intros Ha Hb _ _.
  destruct (intersection_bounds a b Ha Hb) as (H0 & H1 & H2).
  eexists. split; [apply compute_iou_well_formed; assumption|].
  assert (Hd : (0 < area a + area b - intersection a b + eps)%Q)
    by (unfold eps; lra).
  repeat split.
  - apply Qle_shift_div_l; [assumption|]. lra.
  - intros Hapart. rewrite (intersection_apart a b Ha Hb Hapart).
    unfold Qdiv. ring.
  - intros Hsame Harea.
    apply Qle_shift_div_l; [assumption|].
    rewrite (intersection_same_box a b Ha Hsame), (area_same_box a b Hsame).
    unfold eps. lra.
Qed.

Lemma compute_iou_range_witness :
  (exists q : Q,
     compute_iou (Box 40 40 60 60) (Box 40 40 60 60) = Ok (Finite q)
     /\ (0 <= q)%Q /\ (99 # 100 <= q)%Q)
  /\ (exists q : Q,
        compute_iou (Box 40 40 60 60) (Box 60 40 80 60) = Ok (Finite q)
        /\ (q == 0)%Q).
Proof.
  split.
  - destruct (compute_iou_range (Box 40 40 60 60) (Box 40 40 60 60))
      as (q & E & H0 & _ & Hsame);
      [repeat split; vm_compute; discriminate ..|].
    exists q. split; [exact E|]. split; [exact H0|].
    apply Hsame; [repeat split; reflexivity | vm_compute; discriminate].
  - destruct (compute_iou_range (Box 40 40 60 60) (Box 60 40 80 60))
      as (q & E & _ & Hapart & _);
      [repeat split; vm_compute; discriminate ..|].
    exists q. split; [exact E|].
    apply Hapart. left. vm_compute. discriminate.
Defined.

(** C7, as the claim states it, fails: the IoU of the box (40, 40, 60, 60)
    with itself is 400 / 400.000001, which is not 1. *)
Lemma compute_iou_identical_not_one :
  well_formed (Box 40 40 60 60)
  /\ exists q : Q,
       compute_iou (Box 40 40 60 60) (Box 40 40 60 60) = Ok (Finite q)
       /\ ~ (q == 1)%Q.
Proof.
  split; [split; vm_compute; discriminate|].
  eexists. split; [vm_compute; reflexivity|].
  vm_compute. discriminate.
Qed.

(** ** The order on float values *)

Ltac pyfloat_cases :=
  repeat match goal with
    | a : pyfloat |- _ => destruct a
    end;
  unfold py_ge in *; simpl in *;
  try reflexivity; try discriminate; try congruence.

Ltac bool_to_Q :=
  repeat match goal with
    | H : _ || _ = false |- _ => apply orb_false_iff in H; destruct H
    | |- _ || _ = false => apply orb_false_iff; split
    | |- Qltb _ _ = true => apply Qltb_lt
    | |- Qltb _ _ = false => apply Qltb_ge
    | |- Qeq_bool _ _ = false => apply Qeq_bool_false
    end;
  qcases.

Lemma py_gt_irrefl (a : pyfloat) : py_gt a a = false.
Proof. pyfloat_cases. bool_to_Q. lra. Qed.

Lemma py_gt_trans (a b c : pyfloat) :
  py_gt a b = true -> py_gt b c = true -> py_gt a c = true.
Proof. intros H1 H2. pyfloat_cases. bool_to_Q. lra. Qed.

Lemma py_gt_not_nan (a b : pyfloat) : py_gt a b = true -> a <> NaN.
Proof. intros H. pyfloat_cases. Qed.

Lemma py_gt_not_ge (a b : pyfloat) : py_gt b a = true -> py_ge a b = false.
Proof. intros H. pyfloat_cases; bool_to_Q; lra. Qed.

Lemma py_ge_below (w b c : pyfloat) :
  b <> NaN -> py_gt w b = false -> py_gt c b = true -> py_ge w c = false.
Proof. intros Hb H1 H2. pyfloat_cases; bool_to_Q; lra. Qed.

Lemma py_gt_below (w b c : pyfloat) :
  b <> NaN -> py_gt w b = false -> py_gt b c = false -> c <> NaN ->
  py_gt w c = false.
Proof. intros Hb H1 H2 Hc. pyfloat_cases; bool_to_Q; lra. Qed.

Lemma py_ge_gt (a b : pyfloat) : py_ge a b = false -> py_gt a b = false.
Proof. unfold py_ge. intros H. apply orb_false_iff in H. tauto. Qed.

Lemma compute_iou_raises (a b : box) (e : exn) :
  compute_iou a b = Raise e -> e = ZeroDivisionError.
Proof.
  unfold compute_iou.
  repeat match goal with
    | |- context [if ?c then _ else _] => destruct c
    end; congruence.
Qed.

(** ** The inner loop of the matcher *)

Lemma candidate_unique gt_box used_pred pred_boxes k v w :
  candidate gt_box used_pred pred_boxes k v ->
  candidate gt_box used_pred pred_boxes k w -> v = w.
Proof.
  intros (p & Hp & _ & Hv) (p' & Hp' & _ & Hw). congruence.
Qed.

Lemma candidate_head gt_box used_pred (pre : list box) p rest v :
  Z.of_nat (length pre) ∉ used_pred ->
  compute_iou gt_box p = Ok v ->
  candidate gt_box used_pred (pre ++ p :: rest) (length pre) v.
Proof.
  intros Hu Hv. exists p. split; [|split; assumption].
  apply list_lookup_middle. reflexivity.
Qed.

(** What the scan of the detections from position [length pre] on returns:
    either nothing beat the entry value, or the first of the highest
    candidates met did. *)
Lemma scan_preds_spec gt_box used_pred (rest : list box) :
  forall (pre : list box) (b0 : pyfloat) (p0 : Z) (bi : pyfloat) (bp : Z),
    b0 <> NaN ->
    scan_preds gt_box used_pred (len pre) rest b0 p0 = Ok (bi, bp) ->
    bi <> NaN
    /\ ((bi = b0 /\ bp = p0
         /\ forall k w, candidate gt_box used_pred (pre ++ rest) k w ->
                        (length pre <= k)%nat -> py_gt w b0 = false)
        \/ (exists k : nat,
              bp = Z.of_nat k /\ (length pre <= k)%nat
              /\ candidate gt_box used_pred (pre ++ rest) k bi
              /\ py_gt bi b0 = true
              /\ (forall k' w, candidate gt_box used_pred (pre ++ rest) k' w ->
                               (length pre <= k')%nat -> py_gt w bi = false)
              /\ (forall k' w, candidate gt_box used_pred (pre ++ rest) k' w ->
                               (length pre <= k' < k)%nat ->
                               py_ge w bi = false))).
Proof.
  induction rest as [|p rest IH]; intros pre b0 p0 bi bp Hb0 Hscan.
  - simpl in Hscan. injection Hscan as <- <-. split; [assumption|].
    left. repeat split. intros k w (q & Hq & _) Hk.
    rewrite app_nil_r in Hq. apply lookup_lt_Some in Hq. lia.
  - assert (Hlen : len (pre ++ [p]) = len pre + 1)
      by (unfold len; rewrite length_app; simpl; lia).
    assert (Hlen' : length (pre ++ [p]) = S (length pre))
      by (rewrite length_app; simpl; lia).
    assert (Happ : (pre ++ [p]) ++ rest = pre ++ p :: rest)
      by (rewrite <- app_assoc; reflexivity).
    simpl in Hscan. rewrite <- Hlen in Hscan.
    destruct (decide (len pre ∈ used_pred)) as [Hused|Hfree].
    + (* the detection is taken: it is passed over *)
      destruct (IH (pre ++ [p]) b0 p0 bi bp Hb0 Hscan) as [Hbi Hcase].
      rewrite Happ, Hlen' in Hcase. split; [assumption|].
      assert (Hskip : forall w, ~ candidate gt_box used_pred
                                  (pre ++ p :: rest) (length pre) w).
      { intros w (q & _ & Hq & _). apply Hq. exact Hused. }
      destruct Hcase
        as [(-> & -> & Hall)|(k & -> & Hk & Hc & Hgt & Hall & Hfirst)].
      * left. repeat split. intros k w Hc Hk.
        destruct (decide (k = length pre)) as [->|Hne];
          [exfalso; eapply Hskip; eassumption|].
        apply (Hall k w Hc). lia.
      * right. exists k. repeat split; try assumption; try lia.
        -- intros k' w Hc' Hk'.
           destruct (decide (k' = length pre)) as [->|Hne];
             [exfalso; eapply Hskip; eassumption|].
           apply (Hall k' w Hc'). lia.
        -- intros k' w Hc' Hk'.
           destruct (decide (k' = length pre)) as [->|Hne];
             [exfalso; eapply Hskip; eassumption|].
           apply (Hfirst k' w Hc'). lia.
    + destruct (compute_iou gt_box p) as [iou|e] eqn:Hiou; [|discriminate].
      pose proof (candidate_head gt_box used_pred pre p rest iou Hfree Hiou)
        as Hhead.
      assert (Hone : forall w, candidate gt_box used_pred (pre ++ p :: rest)
                                 (length pre) w -> w = iou).
      { intros w Hc. eapply candidate_unique; eassumption. }
      destruct (py_gt iou b0) eqn:Hcmp.
      * (* the detection becomes the best so far *)
        pose proof (py_gt_not_nan _ _ Hcmp) as Hiou_ok.
        destruct (IH (pre ++ [p]) iou (len pre) bi bp Hiou_ok Hscan)
          as [Hbi Hcase].
        rewrite Happ, Hlen' in Hcase. split; [assumption|].
        right.
        destruct Hcase
        as [(-> & -> & Hall)|(k & -> & Hk & Hc & Hgt & Hall & Hfirst)].
        -- exists (length pre). repeat split; try assumption; try lia.
           ++ intros k' w Hc' Hk'.
              destruct (decide (k' = length pre)) as [->|Hne].
              ** rewrite (Hone w Hc'). apply py_gt_irrefl.
              ** apply (Hall k' w Hc'). lia.
        -- exists k. repeat split; try assumption; try lia.
           ++ eapply py_gt_trans; eassumption.
           ++ intros k' w Hc' Hk'.
              destruct (decide (k' = length pre)) as [->|Hne].
              ** rewrite (Hone w Hc'). apply py_ge_gt, py_gt_not_ge, Hgt.
              ** apply (Hall k' w Hc'). lia.
           ++ intros k' w Hc' Hk'.
              destruct (decide (k' = length pre)) as [->|Hne].
              ** rewrite (Hone w Hc'). apply py_gt_not_ge, Hgt.
              ** apply (Hfirst k' w Hc'). lia.
      * (* the detection does not beat the best so far *)
        destruct (IH (pre ++ [p]) b0 p0 bi bp Hb0 Hscan) as [Hbi Hcase].
        rewrite Happ, Hlen' in Hcase. split; [assumption|].
        destruct Hcase
        as [(-> & -> & Hall)|(k & -> & Hk & Hc & Hgt & Hall & Hfirst)].
        -- left. repeat split. intros k w Hc Hk.
           destruct (decide (k = length pre)) as [->|Hne].
           ++ rewrite (Hone w Hc). exact Hcmp.
           ++ apply (Hall k w Hc). lia.
        -- right. exists k. repeat split; try assumption; try lia.
           ++ intros k' w Hc' Hk'.
              destruct (decide (k' = length pre)) as [->|Hne].
              ** rewrite (Hone w Hc').
                 apply py_ge_gt, (py_ge_below iou b0 bi Hb0 Hcmp Hgt).
              ** apply (Hall k' w Hc'). lia.
           ++ intros k' w Hc' Hk'.
              destruct (decide (k' = length pre)) as [->|Hne].
              ** rewrite (Hone w Hc').
                 apply (py_ge_below iou b0 bi Hb0 Hcmp Hgt).
              ** apply (Hfirst k' w Hc'). lia.
Qed.

Lemma scan_preds_raises gt_box used_pred (rest : list box) :
  forall (j : Z) (b0 : pyfloat) (p0 : Z) (e : exn),
    scan_preds gt_box used_pred j rest b0 p0 = Raise e ->
    e = ZeroDivisionError
    /\ exists p, p ∈ rest /\ compute_iou gt_box p = Raise ZeroDivisionError.
Proof.
  induction rest as [|p rest IH]; intros j b0 p0 e Hscan; simpl in Hscan.
  - discriminate.
  - assert (Hrest : forall j b0 p0,
               scan_preds gt_box used_pred j rest b0 p0 = Raise e ->
               e = ZeroDivisionError
               /\ exists q, q ∈ p :: rest
                            /\ compute_iou gt_box q = Raise ZeroDivisionError).
    { intros j' b0' p0' H. destruct (IH _ _ _ _ H) as (-> & q & Hq & Hr).
      split; [reflexivity|]. exists q. split; [|assumption].
      apply elem_of_cons. right. assumption. }
    destruct (decide (j ∈ used_pred)); [eapply Hrest; eassumption|].
    destruct (compute_iou gt_box p) as [iou|e'] eqn:Hiou.
    + destruct (py_gt iou b0); eapply Hrest; eassumption.
    + injection Hscan as ->.
      pose proof (compute_iou_raises _ _ _ Hiou) as ->.
      split; [reflexivity|]. exists p. split; [|assumption].
      apply elem_of_cons. left. reflexivity.
Qed.

(** The inner loop as the outer loop runs it: from index 0, with
    [best_iou = 0] and [best_pred = -1]. *)
Lemma scan_preds_choice gt_box used_pred pred_boxes bi bp :
  scan_preds gt_box used_pred 0 pred_boxes (Finite 0) (-1) = Ok (bi, bp) ->
  if py_gt bi iou_threshold
  then exists k : nat,
         bp = Z.of_nat k /\ best_candidate gt_box used_pred pred_boxes k bi
  else forall k w, candidate gt_box used_pred pred_boxes k w ->
                   py_gt w iou_threshold = false.
Proof.
  intros Hscan.
  assert (H0 : Finite 0 <> NaN) by discriminate.
  destruct (scan_preds_spec gt_box used_pred pred_boxes [] (Finite 0) (-1)
              bi bp H0 Hscan) as [Hbi Hcase].
  simpl in Hcase.
  destruct Hcase as [(-> & -> & Hall)|(k & -> & _ & Hc & Hgt & Hall & Hfirst)].
  - replace (py_gt (Finite 0) iou_threshold) with false by reflexivity.
    intros k w Hc.
    apply (py_gt_below w (Finite 0) iou_threshold); try discriminate.
    + apply (Hall k w Hc). lia.
    + reflexivity.
  - destruct (py_gt bi iou_threshold) eqn:Hthr.
    + exists k. split; [reflexivity|]. split; [assumption|]. split.
      * intros k' w Hc'. apply (Hall k' w Hc'). lia.
      * intros k' w Hc' Hk'. apply (Hfirst k' w Hc'). lia.
    + intros k' w Hc'.
      apply (py_gt_below w bi iou_threshold); try assumption; try discriminate.
      apply (Hall k' w Hc'). lia.
Qed.

(** ** The outer loop of the matcher *)

(** The loop computes the matches of the greedy rule and appends them to
    the ones it entered with. *)
Lemma match_loop_greedy (pred_boxes gt_boxes : list box) :
  forall (i : Z) (matches0 : list (Z * Z)) (used0 : gset Z)
         (matches : list (Z * Z)) (used : gset Z),
    match_loop i gt_boxes pred_boxes matches0 used0 = Ok (matches, used) ->
    exists new,
      matches = matches0 ++ new
      /\ greedy pred_boxes i gt_boxes used0 new
      /\ used = used0 ∪ list_to_set new.*2.
Proof.
  induction gt_boxes as [|g rest IH]; intros i ms0 used0 ms used Hloop;
    simpl in Hloop.
  - injection Hloop as <- <-. exists []. rewrite app_nil_r.
    split; [reflexivity|]. split; [constructor|].
    simpl. set_solver.
  - destruct (scan_preds g used0 0 pred_boxes (Finite 0) (-1))
      as [[bi bp]|e] eqn:Hscan; [|discriminate].
    pose proof (scan_preds_choice _ _ _ _ _ Hscan) as Hchoice.
    destruct (py_gt bi iou_threshold) eqn:Hthr.
    + destruct Hchoice as (k & -> & Hbest).
      destruct (IH _ _ _ _ _ Hloop) as (new & -> & Hgreedy & ->).
      exists ((i, Z.of_nat k) :: new). rewrite <- app_assoc.
      split; [reflexivity|]. split.
      * eapply greedy_match; eassumption.
      * simpl. set_solver.
    + destruct (IH _ _ _ _ _ Hloop) as (new & -> & Hgreedy & ->).
      exists new. split; [reflexivity|]. split; [|reflexivity].
      apply greedy_unmatched; assumption.
Qed.

Lemma match_loop_raises (pred_boxes gt_boxes : list box) :
  forall (i : Z) (matches0 : list (Z * Z)) (used0 : gset Z) (e : exn),
    match_loop i gt_boxes pred_boxes matches0 used0 = Raise e ->
    e = ZeroDivisionError
    /\ exists g p, g ∈ gt_boxes /\ p ∈ pred_boxes
                   /\ compute_iou g p = Raise ZeroDivisionError.
Proof.
  induction gt_boxes as [|g rest IH]; intros i ms0 used0 e Hloop;
    simpl in Hloop; [discriminate|].
  assert (Hrest : forall i ms0 used0,
             match_loop i rest pred_boxes ms0 used0 = Raise e ->
             e = ZeroDivisionError
             /\ exists g' p, g' ∈ g :: rest /\ p ∈ pred_boxes
                   /\ compute_iou g' p = Raise ZeroDivisionError).
  { intros i' ms' used' H.
    destruct (IH _ _ _ _ H) as (-> & g' & p & Hg & Hp & Hr).
    split; [reflexivity|]. exists g', p. split; [|split; assumption].
    apply elem_of_cons. right. assumption. }
  destruct (scan_preds g used0 0 pred_boxes (Finite 0) (-1))
    as [[bi bp]|e'] eqn:Hscan.
  - destruct (py_gt bi iou_threshold); eapply Hrest; eassumption.
  - injection Hloop as ->.
    destruct (scan_preds_raises _ _ _ _ _ _ _ Hscan) as (-> & p & Hp & Hr).
    split; [reflexivity|]. exists g, p. split; [|split; assumption].
    apply elem_of_cons. left. reflexivity.
Qed.

(** What the greedy rule guarantees about its matches. *)
Lemma greedy_shape pred_boxes i gt_boxes used_pred matches :
  greedy pred_boxes i gt_boxes used_pred matches ->
  Forall (fun m => i <= m.1 < i + len gt_boxes
                   /\ 0 <= m.2 < len pred_boxes
                   /\ m.2 ∉ used_pred) matches
  /\ NoDup matches.*1
  /\ NoDup matches.*2
  /\ (length matches <= length gt_boxes)%nat.
Proof.
  induction 1
    as [i used
       |i g rest used k v ms Hbest Hthr Hrec (Hall & Hfst & Hsnd & Hlen)
       |i g rest used ms Hnone Hrec (Hall & Hfst & Hsnd & Hlen)].
  - repeat split; simpl; constructor.
  - assert (Hl : len (g :: rest) = len rest + 1)
      by (unfold len; simpl length; lia).
    destruct Hbest as ((p & Hp & Hfree & _) & _).
    apply lookup_lt_Some in Hp.
    rewrite Forall_forall in Hall.
    repeat split.
    + constructor.
      * simpl. unfold len in *. split; [lia|]. split; [lia|assumption].
      * apply Forall_forall. intros m Hm.
        destruct (Hall m Hm) as (H1 & H2 & H3).
        split; [lia|]. split; [lia|]. set_solver.
    + simpl. constructor; [|assumption].
      intros Hin. apply list_elem_of_fmap in Hin as (m & Hm1 & Hm).
      destruct (Hall m Hm) as (H1 & _). simpl in Hm1. lia.
    + simpl. constructor; [|assumption].
      intros Hin. apply list_elem_of_fmap in Hin as (m & Hm1 & Hm).
      destruct (Hall m Hm) as (_ & _ & H3). simpl in Hm1. set_solver.
    + simpl. lia.
  - assert (Hl : len (g :: rest) = len rest + 1)
      by (unfold len; simpl length; lia).
    rewrite Forall_forall in Hall.
    repeat split; try assumption.
    + apply Forall_forall. intros m Hm.
      destruct (Hall m Hm) as (H1 & H2 & H3).
      split; [lia|]. split; [lia|assumption].
    + simpl. lia.
Qed.

Lemma py_eq_incomparable (a b : pyfloat) :
  a <> NaN -> b <> NaN -> py_gt a b = false -> py_gt b a = false ->
  py_eq a b = true.
Proof.
  intros Ha Hb H1 H2. pyfloat_cases. bool_to_Q.
  apply Qeq_bool_iff. lra.
Qed.

Lemma best_candidate_unique gt_box used_pred pred_boxes k v k' v' :
  best_candidate gt_box used_pred pred_boxes k v ->
  best_candidate gt_box used_pred pred_boxes k' v' ->
  py_gt v iou_threshold = true -> py_gt v' iou_threshold = true ->
  k = k'.
Proof.
  intros (Hc & Hmax & Hfirst) (Hc' & Hmax' & Hfirst') Hv Hv'.
  pose proof (Hmax k' v' Hc') as H1.
  pose proof (Hmax' k v Hc) as H2.
  pose proof (py_eq_incomparable v v' (py_gt_not_nan _ _ Hv)
                (py_gt_not_nan _ _ Hv') H2 H1) as Heq.
  assert (Heq' : py_eq v' v = true).
  { apply py_eq_incomparable; try assumption;
      eapply py_gt_not_nan; eassumption. }
  destruct (lt_eq_lt_dec k k') as [[Hlt|Heqk]|Hgt]; [|assumption|].
  - pose proof (Hfirst' k v Hc Hlt) as Hge. unfold py_ge in Hge.
    rewrite Heq, orb_true_r in Hge. discriminate.
  - pose proof (Hfirst k' v' Hc' Hgt) as Hge. unfold py_ge in Hge.
    rewrite Heq', orb_true_r in Hge. discriminate.
Qed.

(** The greedy rule leaves no choice: it has at most one result. *)
Lemma greedy_deterministic pred_boxes i gt_boxes used_pred matches :
  greedy pred_boxes i gt_boxes used_pred matches ->
  forall matches',
    greedy pred_boxes i gt_boxes used_pred matches' -> matches' = matches.
Proof.
  induction 1 as [i used
                 |i g rest used k v ms Hbest Hthr Hrec IH
                 |i g rest used ms Hnone Hrec IH];
    intros ms' Hg'; inversion Hg'; subst.
  - reflexivity.
  - assert (k0 = k) as -> by (eapply best_candidate_unique; eassumption).
    f_equal. apply IH. assumption.
  - destruct Hbest as (Hc & _).
    match goal with
    | Hn : forall k w, candidate _ _ _ k w -> _ |- _ =>
        rewrite (Hn k v Hc) in Hthr
    end. discriminate.
  - match goal with
    | Hb : best_candidate _ _ _ ?k0 ?v0, Ht : py_gt ?v0 _ = true |- _ =>
        destruct Hb as (Hc & _); rewrite (Hnone k0 v0 Hc) in Ht
    end. discriminate.
  - apply IH. assumption.
Qed.

(** The matcher returns the matches of the greedy rule, and fails only on
    a division by zero in [compute_iou]. *)
Lemma match_boxes_outcome (gt_boxes pred_boxes : list box) :
  match match_boxes gt_boxes pred_boxes with
  | Ok matches => greedy pred_boxes 0 gt_boxes ∅ matches
  | Raise e =>
      e = ZeroDivisionError
      /\ exists g p, g ∈ gt_boxes /\ p ∈ pred_boxes
                     /\ compute_iou g p = Raise ZeroDivisionError
  end.
Proof.
  unfold match_boxes.
  destruct (match_loop 0 gt_boxes pred_boxes [] ∅) as [[ms used]|e] eqn:Hloop.
  - destruct (match_loop_greedy _ _ _ _ _ _ _ Hloop) as (new & -> & Hg & _).
    exact Hg.
  - eapply match_loop_raises. eassumption.
Qed.

(** On boxes that satisfy the invariant the matcher returns matches. *)
Lemma match_boxes_total (gt_boxes pred_boxes : list box) :
  Forall well_formed gt_boxes -> Forall well_formed pred_boxes ->
  exists matches, match_boxes gt_boxes pred_boxes = Ok matches.
Proof.
  intros Hg Hp. pose proof (match_boxes_outcome gt_boxes pred_boxes) as H.
  destruct (match_boxes gt_boxes pred_boxes) as [ms|e]; [eauto|].
  destruct H as (_ & g & p & Hgin & Hpin & Hraise).
  rewrite Forall_forall in Hg, Hp.
  rewrite (compute_iou_well_formed g p (Hg g Hgin) (Hp p Hpin)) in Hraise.
  discriminate.
Qed.

(** C3.  Whatever the boxes, the matcher either returns exactly the
    matches of the greedy rule or raises on a division by zero in the IoU.
    The rule takes the ground-truth boxes in list order, numbered from 0;
    for each it looks at the detections not used yet; it records a match,
    and marks the detection used, exactly when the highest IoU among them is
    above 0.5, and the match goes to the first detection in list order
    that reaches this highest IoU; no detection appears in two matches. *)
Theorem match_boxes_greedy (gt_boxes pred_boxes : list box) :
  match match_boxes gt_boxes pred_boxes with
  | Ok matches =>
      greedy pred_boxes 0 gt_boxes ∅ matches
      /\ (forall matches', greedy pred_boxes 0 gt_boxes ∅ matches' ->
                           matches' = matches)
      /\ NoDup matches.*2
  | Raise e =>
      e = ZeroDivisionError
      /\ exists g p, g ∈ gt_boxes /\ p ∈ pred_boxes
                     /\ compute_iou g p = Raise ZeroDivisionError
  end.
Proof.
  pose proof (match_boxes_outcome gt_boxes pred_boxes) as H.
  destruct (match_boxes gt_boxes pred_boxes) as [ms|e]; [|exact H].
  split; [exact H|]. split.
  - apply greedy_deterministic. exact H.
  - apply (greedy_shape _ _ _ _ _ H).
Qed.

(** C5.  Whatever the boxes, the matches the matcher returns are one to
    one: no ground-truth index is in two matches and no detection index is
    in two matches.  (The matcher fails only on a division by zero.) *)
Theorem match_boxes_one_to_one (gt_boxes pred_boxes : list box) :
  match match_boxes gt_boxes pred_boxes with
  | Ok matches => NoDup matches.*1 /\ NoDup matches.*2
  | Raise e => e = ZeroDivisionError
  end.
Proof.
  pose proof (match_boxes_outcome gt_boxes pred_boxes) as H.
  destruct (match_boxes gt_boxes pred_boxes) as [ms|e]; [|apply H].
  destruct (greedy_shape _ _ _ _ _ H) as (_ & Hfst & Hsnd & _).
  split; assumption.
Qed.

(** The scenarios of the specification.  A ground-truth box found exactly
    is matched; a detection elsewhere is not; of two detections on two
    ground-truth boxes at one place, the first box takes the detection with
    the higher IoU and the second box the one that is left; of two equal
    detections the first is taken. *)
Example match_exact :
  match_boxes [Box 40 40 60 60] [Box 40 40 60 60] = Ok [(0, 0)].
Proof. vm_compute. reflexivity. Qed.

Example match_elsewhere :
  match_boxes [Box 40 40 60 60] [Box 70 70 90 90] = Ok [].
Proof. vm_compute. reflexivity. Qed.

Example match_two_on_one_place :
  match_boxes [Box 0 0 10 10; Box 0 0 10 10] [Box 0 0 10 6; Box 0 0 10 9]
  = Ok [(0, 1); (1, 0)].
Proof. vm_compute. reflexivity. Qed.

Example match_tie_first :
  match_boxes [Box 0 0 10 10] [Box 0 0 10 9; Box 0 0 10 9] = Ok [(0, 0)].
Proof. vm_compute. reflexivity. Qed.

(** A division by zero, on boxes outside the invariant: the call raises
    when the clamped sides are both the integer 0, and gives [nan] when one
    of them is a numpy scalar. *)
Example iou_zero_divisor_raises :
  compute_iou (Box 0 0 (-1 # 1000000) 1) (Box 0 0 0 0)
  = Raise ZeroDivisionError.
Proof. vm_compute. reflexivity. Qed.

Example iou_zero_divisor_nan :
  compute_iou (Box 0 0 (-1 # 1000000) 1) (Box 0 0 0 1) = Ok NaN.
Proof. vm_compute. reflexivity. Qed.

(** ** Counts and metrics *)

Lemma greedy_count pred_boxes gt_boxes matches :
  greedy pred_boxes 0 gt_boxes ∅ matches ->
  0 <= len matches <= len gt_boxes /\ len matches <= len pred_boxes.
Proof.
  intros Hg. destruct (greedy_shape _ _ _ _ _ Hg) as (Hall & _ & Hsnd & Hlen).
  unfold len. split; [lia|].
  assert (Hsub : matches.*2 ⊆+ seqZ 0 (Z.of_nat (length pred_boxes))).
  { apply NoDup_submseteq; [assumption|]. intros d Hd.
    apply list_elem_of_fmap in Hd as (m & -> & Hm).
    rewrite Forall_forall in Hall. destruct (Hall m Hm) as (_ & Hr & _).
    apply elem_of_seqZ. unfold len in Hr. lia. }
  apply submseteq_length in Hsub.
  rewrite length_fmap, length_seqZ in Hsub. lia.
Qed.

Lemma int_div_unit (n d : Z) :
  0 <= n <= d -> 0 < d -> (0 <= int_div n d)%Q /\ (int_div n d <= 1)%Q.
Proof.
  intros [Hn Hnd] Hd. unfold int_div.
  assert (Hd' : (0 < inject_Z d)%Q)
    by (change 0%Q with (inject_Z 0); rewrite <- Zlt_Qlt; assumption).
  assert (Hn' : (0 <= inject_Z n)%Q)
    by (change 0%Q with (inject_Z 0); rewrite <- Zle_Qle; assumption).
  assert (Hnd' : (inject_Z n <= inject_Z d)%Q)
    by (rewrite <- Zle_Qle; assumption).
  split.
  - apply Qle_shift_div_l; [assumption|]. lra.
  - apply Qle_shift_div_r; [assumption|]. lra.
Qed.

(** The metrics of an image with [G] ground-truth boxes, [P] detections and
    [M] matches, [0 <= M <= G] and [M <= P]. *)
Lemma image_metrics_bounds (G P M : Z) :
  0 <= M <= G -> M <= P ->
  let m := image_metrics G P M in
  0 <= fp m /\ 0 <= fn m
  /\ (0 <= precision m)%Q /\ (precision m <= 1)%Q
  /\ (0 <= recall m)%Q /\ (recall m <= 1)%Q.
Proof.
  intros HG HP. simpl.
  split; [lia|]. split; [lia|].
  assert (Hp : (0 <= (if 0 <? M + (P - M)
                      then int_div M (M + (P - M)) else 0%Q))%Q
               /\ ((if 0 <? M + (P - M)
                    then int_div M (M + (P - M)) else 0%Q) <= 1)%Q).
  { destruct (0 <? M + (P - M)) eqn:E.
    - apply Z.ltb_lt in E. apply int_div_unit; lia.
    - split; lra. }
  assert (Hr : (0 <= (if 0 <? M + (G - M)
                      then int_div M (M + (G - M)) else 0%Q))%Q
               /\ ((if 0 <? M + (G - M)
                    then int_div M (M + (G - M)) else 0%Q) <= 1)%Q).
  { destruct (0 <? M + (G - M)) eqn:E.
    - apply Z.ltb_lt in E. apply int_div_unit; lia.
    - split; lra. }
  tauto.
Qed.

(** C10.  Whatever the boxes, the number of matches is at most the number
    of ground-truth boxes and at most the number of detections, so the
    false positives and false negatives are not negative and the precision
    and recall of the image lie between 0 and 1.  (The matcher fails only
    on a division by zero.) *)
Theorem match_count_bounds (gt_boxes pred_boxes : list box) :
  match match_boxes gt_boxes pred_boxes with
  | Ok matches =>
      let m := image_metrics (len gt_boxes) (len pred_boxes) (len matches) in
      len matches <= len gt_boxes
      /\ len matches <= len pred_boxes
      /\ 0 <= fp m /\ 0 <= fn m
      /\ (0 <= precision m)%Q /\ (precision m <= 1)%Q
      /\ (0 <= recall m)%Q /\ (recall m <= 1)%Q
  | Raise e => e = ZeroDivisionError
  end.
Proof.
  pose proof (match_boxes_outcome gt_boxes pred_boxes) as H.
  destruct (match_boxes gt_boxes pred_boxes) as [ms|e]; [|apply H].
  destruct (greedy_count _ _ _ H) as (HG & HP).
  split; [lia|]. split; [lia|].
  apply image_metrics_bounds; lia.
Qed.

(** The path of an image that has labels, is decoded, and gets detections
    that the matcher pairs. *)
Lemma evaluate_image_evaluated (st : state) (im : image)
    (lines : list (list field)) (gt_labels : list label) (img_h img_w : Z)
    (pred_boxes : list box) (matches : list (Z * Z)) :
  label_file im = Some lines ->
  load_labels lines = Ok gt_labels ->
  imread im = Some (img_h, img_w) ->
  model im = Ok pred_boxes ->
  0 < len (yolo_to_xyxy gt_labels img_w img_h) ->
  0 < len pred_boxes ->
  match_boxes (yolo_to_xyxy gt_labels img_w img_h) pred_boxes = Ok matches ->
  let m := image_metrics (len (yolo_to_xyxy gt_labels img_w img_h))
             (len pred_boxes) (len matches) in
  evaluate_image st im
  = match line_print im with
    | None =>
        Done (State (all_precisions st ++ [precision m])
                    (all_recalls st ++ [recall m])
                    (valid_images st + 1)
                    ((trace st ++ [ImageLine (name im) m]) ++ [ClearMemory]))
    | Some e =>
        Failed (State (all_precisions st ++ [precision m])
                      (all_recalls st ++ [recall m])
                      (valid_images st + 1)
                      (trace st)) e
    end.
Proof.
  intros Hfile Hload Hread Hmodel HG HP Hmatch m.
  unfold evaluate_image. rewrite Hfile, Hload, Hread, Hmodel, Hmatch.
  assert (HG' : len gt_labels = len (yolo_to_xyxy gt_labels img_w img_h))
    by (unfold yolo_to_xyxy, len; rewrite length_map; reflexivity).
  replace (len gt_labels =? 0) with false by (symmetry; apply Z.eqb_neq; lia).
  replace (len pred_boxes =? 0) with false by (symmetry; apply Z.eqb_neq; lia).
  destruct (line_print im); reflexivity.
Qed.

(** C6.  An image with [G > 0] ground-truth boxes and [P > 0] detections,
    for which the matcher returns [M] matches, is recorded with
    [tp = M], [fp = P - M], [fn = G - M],
    [precision = tp / (tp + fp)] when [tp + fp > 0] and 0 otherwise, and
    [recall = tp / (tp + fn)] when [tp + fn > 0] and 0 otherwise, the
    quotients being those of the rational numbers: the precision times
    [tp + fp] is [tp], the recall times [tp + fn] is [tp].  These are the
    values appended to the two lists, and the values of the metrics line
    of the image when that line is printed. *)
Theorem evaluated_image_metrics (st : state) (im : image)
    (lines : list (list field)) (gt_labels : list label) (img_h img_w : Z)
    (pred_boxes : list box) (matches : list (Z * Z)) :
  label_file im = Some lines ->
  load_labels lines = Ok gt_labels ->
  imread im = Some (img_h, img_w) ->
  model im = Ok pred_boxes ->
  0 < len (yolo_to_xyxy gt_labels img_w img_h) ->
  0 < len pred_boxes ->
  match_boxes (yolo_to_xyxy gt_labels img_w img_h) pred_boxes = Ok matches ->
  let G := len (yolo_to_xyxy gt_labels img_w img_h) in
  let P := len pred_boxes in
  let M := len matches in
  exists m : metrics,
    evaluate_image st im
    = match line_print im with
      | None =>
          Done (State (all_precisions st ++ [precision m])
                      (all_recalls st ++ [recall m])
                      (valid_images st + 1)
                      ((trace st ++ [ImageLine (name im) m])
                       ++ [ClearMemory]))
      | Some e =>
          Failed (State (all_precisions st ++ [precision m])
                        (all_recalls st ++ [recall m])
                        (valid_images st + 1)
                        (trace st)) e
      end
    /\ tp m = M
    /\ fp m = P - M
    /\ fn m = G - M
    /\ precision m
       = (if 0 <? tp m + fp m
          then inject_Z (tp m) / inject_Z (tp m + fp m) else 0)%Q
    /\ recall m
       = (if 0 <? tp m + fn m
          then inject_Z (tp m) / inject_Z (tp m + fn m) else 0)%Q
    /\ (0 < tp m + fp m ->
        (precision m * inject_Z (tp m + fp m) == inject_Z (tp m))%Q)
    /\ (0 < tp m + fn m ->
        (recall m * inject_Z (tp m + fn m) == inject_Z (tp m))%Q).
Proof.
  intros Hfile Hload Hread Hmodel HG HP Hmatch G P M.
  exists (image_metrics G P M).
  split; [eapply evaluate_image_evaluated; eassumption|].
  do 5 (split; [reflexivity|]).
  split; intros Hpos; cbn [precision recall tp fp fn image_metrics] in *;
    apply Z.ltb_lt in Hpos as Hb; rewrite Hb; unfold int_div;
    field; change 0%Q with (inject_Z 0); rewrite inject_Z_injective; lia.
Qed.

Lemma evaluated_image_metrics_witness :
  exists m : metrics,
    evaluate_image initial (garbled_image "a")
    = Failed (State ([] ++ [precision m]) ([] ++ [recall m]) (0 + 1) [])
        ValueError
    /\ tp m = 1 /\ fp m = 1 /\ fn m = 0
    /\ precision m = (1 / 2)%Q
    /\ recall m = (1 / 1)%Q.
Proof.
  destruct (evaluated_image_metrics initial (garbled_image "a")
              [centre_label] [Label 0 (1 # 2) (1 # 2) (1 # 5) (1 # 5)]
              100 100 [Box 40 40 60 60; Box 70 70 90 90] [(0, 0)])
    as (m & E & Htp & Hfp & Hfn & Hp & Hr & _);
    [vm_compute; reflexivity ..|].
  exists m. split; [exact E|].
  rewrite Hp, Hr, Htp, Hfp, Hfn. vm_compute. repeat split; reflexivity.
Defined.

(** ** The run: every step extends the state *)

Lemma combine_initial_r (st : state) : combine st initial = st.
Proof.
  destruct st. unfold combine. simpl.
  rewrite !app_nil_r, Z.add_0_r. reflexivity.
Qed.

Lemma combine_assoc (a b c : state) :
  combine (combine a b) c = combine a (combine b c).
Proof.
  unfold combine. simpl. rewrite <- !app_assoc, Z.add_assoc. reflexivity.
Qed.

Lemma combine_emit (st d : state) (ev : event) :
  combine st (emit ev d) = emit ev (combine st d).
Proof. unfold combine, emit. simpl. rewrite app_assoc. reflexivity. Qed.

Lemma emit_combine (st : state) (ev : event) :
  emit ev st = combine st (emit ev initial).
Proof.
  rewrite combine_emit, combine_initial_r. reflexivity.
Qed.

Lemma flow_map_compose (g h : state -> state) (f : flow) :
  flow_map g (flow_map h f) = flow_map (fun st => g (h st)) f.
Proof. destruct f; reflexivity. Qed.

Lemma flow_map_ext (g h : state -> state) (f : flow) :
  (forall st, g st = h st) -> flow_map g f = flow_map h f.
Proof. intros E. destruct f; simpl; rewrite E; reflexivity. Qed.

(** The body of the [try] started in [st] does what it does started in
    [initial], after [st]. *)
Lemma evaluate_image_frame (st : state) (im : image) :
  evaluate_image st im
  = match evaluate_image initial im with
    | Done d => Done (combine st d)
    | Failed d e => Failed (combine st d) e
    end.
Proof.
  unfold evaluate_image.
  destruct (label_file im) as [lines|];
    [|rewrite <- emit_combine; reflexivity].
  destruct (load_labels lines) as [gt_labels|e];
    [|rewrite combine_initial_r; reflexivity].
  destruct (len gt_labels =? 0); [rewrite <- emit_combine; reflexivity|].
  destruct (imread im) as [[img_h img_w]|];
    [|rewrite <- emit_combine; reflexivity].
  destruct (model im) as [pred_boxes|e];
    [|rewrite combine_initial_r; reflexivity].
  destruct (len pred_boxes =? 0).
  - unfold combine, emit. simpl. rewrite Z.add_0_r. reflexivity.
  - destruct (match_boxes _ pred_boxes) as [matches|e];
      [|rewrite combine_initial_r; reflexivity].
    destruct (line_print im) as [e|].
    + unfold combine. simpl. rewrite app_nil_r. reflexivity.
    + unfold combine, clear_memory, emit. simpl.
      rewrite <- !app_assoc. reflexivity.
Qed.

Lemma process_image_frame (st : state) (im : image) :
  process_image st im = flow_map (combine st) (process_image initial im).
Proof.
  unfold process_image. rewrite evaluate_image_frame.
  destruct (evaluate_image initial im) as [d|d e]; [reflexivity|].
  destruct (is_Exception e); simpl.
  - rewrite combine_emit. reflexivity.
  - reflexivity.
Qed.

Lemma image_loop_frame (batch_paths : list image) :
  forall st : state,
    image_loop st batch_paths
    = flow_map (combine st) (image_loop initial batch_paths).
Proof.
  induction batch_paths as [|im rest IH]; intros st; simpl.
  - rewrite combine_initial_r. reflexivity.
  - rewrite (process_image_frame st im).
    destruct (process_image initial im) as [d|d]; simpl; [|reflexivity].
    rewrite (IH (combine st d)), (IH d), flow_map_compose.
    apply flow_map_ext. intros s. apply combine_assoc.
Qed.

Lemma image_loop_app (l1 l2 : list image) :
  forall st : state,
    image_loop st (l1 ++ l2)
    = match image_loop st l1 with
      | Completed st' => image_loop st' l2
      | Interrupt st' => Interrupt st'
      end.
Proof.
  induction l1 as [|im rest IH]; intros st; simpl; [reflexivity|].
  destruct (process_image st im) as [st'|st']; [apply IH|reflexivity].
Qed.

(** ** The run: batches *)

Lemma range_step_batches (l : list image) (c : nat) :
  concat (map (fun batch_idx => take batch_size (drop batch_idx l))
              (map (fun k => (k * batch_size)%nat) (seq 0 c)))
  = take (c * batch_size) l.
Proof.
  induction c as [|c IH].
  - simpl. rewrite take_0. reflexivity.
  - replace (S c * batch_size)%nat with (c * batch_size + batch_size)%nat
      by lia.
    rewrite seq_S, !map_app, concat_app, IH. cbn [map concat Nat.add].
    rewrite app_nil_r, take_take_drop. reflexivity.
Qed.

(** The batches, put end to end, are the image list. *)
Lemma batches_concat (l : list image) : concat (batches l) = l.
Proof.
  unfold batches, range_step. rewrite range_step_batches.
  apply take_ge. unfold batch_size.
  pose proof (Nat.div_mod_eq (length l + 5 - 1) 5) as Hdiv.
  pose proof (Nat.mod_upper_bound (length l + 5 - 1) 5) as Hmod.
  lia.
Qed.

Lemma essence_combine (a b : state) :
  essence (combine a b) = combine (essence a) (essence b).
Proof.
  unfold essence, combine, image_events. simpl.
  rewrite filter_app. reflexivity.
Qed.

Lemma essence_emit (ev : event) (st : state) :
  is_image_event ev = false -> essence (emit ev st) = essence st.
Proof.
  intros Hev. unfold essence, emit, image_events. simpl.
  rewrite filter_app, filter_cons, filter_nil.
  destruct (decide (is_image_event ev = true)) as [E|_]; [congruence|].
  rewrite app_nil_r. reflexivity.
Qed.

Lemma image_loop_essence (l : list image) (st1 st2 : state) :
  essence st1 = essence st2 ->
  flow_map essence (image_loop st1 l) = flow_map essence (image_loop st2 l).
Proof.
  intros E. rewrite (image_loop_frame l st1), (image_loop_frame l st2).
  rewrite !flow_map_compose. apply flow_map_ext. intros d.
  rewrite !essence_combine, E. reflexivity.
Qed.

(** But for the lines that do not end an image, the batch loop is the image
    loop over the batches put end to end. *)
Lemma batch_loop_essence (image_paths : list image) (total_batches : Z)
    (indices : list nat) :
  forall st : state,
    flow_map essence (batch_loop image_paths total_batches st indices)
    = flow_map essence
        (image_loop st
           (concat (map (fun batch_idx =>
                           take batch_size (drop batch_idx image_paths))
                        indices))).
Proof.
  induction indices as [|b rest IH]; intros st; simpl; [reflexivity|].
  rewrite image_loop_app. unfold process_batch.
  set (st0 := emit (BatchHeader _ total_batches) (clear_memory st)).
  set (batch := take batch_size (drop b image_paths)).
  assert (E0 : essence st0 = essence st).
  { unfold st0, clear_memory. rewrite !essence_emit; reflexivity. }
  rewrite (image_loop_frame batch st0), (image_loop_frame batch st).
  destruct (image_loop initial batch) as [d|d]; simpl.
  - rewrite IH. apply image_loop_essence.
    unfold clear_memory. rewrite essence_emit by reflexivity.
    rewrite !essence_combine, E0. reflexivity.
  - rewrite !essence_combine, E0. reflexivity.
Qed.

Lemma essence_finalize (st : state) :
  essence (finalize st) = essence st.
Proof.
  unfold finalize. rewrite essence_emit by reflexivity.
  destruct (0 <? valid_images st); rewrite essence_emit; reflexivity.
Qed.

(** But for the lines that do not end an image, the run is the image loop
    over the image list. *)
Lemma evaluate_essence (image_paths : list image) :
  essence (evaluate image_paths)
  = essence (flow_state (image_loop initial image_paths)).
Proof.
  unfold evaluate.
  pose proof (batch_loop_essence image_paths
                ((len image_paths + Z.of_nat batch_size - 1)
                 / Z.of_nat batch_size)
                (range_step (length image_paths) batch_size) initial) as H.
  fold (batches image_paths) in H. rewrite batches_concat in H.
  destruct (batch_loop image_paths _ initial _) as [st|st];
    destruct (image_loop initial image_paths) as [st'|st'];
    simpl in H; try discriminate;
    assert (E : essence st = essence st') by congruence; simpl.
  - rewrite essence_finalize. exact E.
  - rewrite essence_finalize, essence_emit by reflexivity. exact E.
Qed.

(** ** The run: what one image adds to the trace *)

Lemma evaluate_image_initial_trace (im : image) (d : state) :
  evaluate_image initial im = Done d ->
  exists ev, is_image_event ev = true
             /\ (trace d = [ev] \/ trace d = [ev; ClearMemory]).
Proof.
  unfold evaluate_image.
  destruct (label_file im) as [lines|];
    [|intros [= <-]; eexists; split; [|left; reflexivity]; reflexivity].
  destruct (load_labels lines) as [gt_labels|e]; [|discriminate].
  destruct (len gt_labels =? 0);
    [intros [= <-]; eexists; split; [|left; reflexivity]; reflexivity|].
  destruct (imread im) as [[img_h img_w]|];
    [|intros [= <-]; eexists; split; [|left; reflexivity]; reflexivity].
  destruct (model im) as [pred_boxes|e]; [|discriminate].
  destruct (len pred_boxes =? 0);
    [intros [= <-]; eexists; split; [|left; reflexivity]; reflexivity|].
  destruct (match_boxes _ pred_boxes) as [matches|e]; [|discriminate].
  destruct (line_print im) as [e|]; [discriminate|].
  intros [= <-]. eexists. split; [|right; reflexivity]. reflexivity.
Qed.

(** An exception finds nothing of the image in the trace; the lists have
    its precision and its recall, and the counter counts it, exactly when
    the exception is that of the print of its metrics line. *)
Lemma evaluate_image_initial_failed (im : image) (d : state) (e : exn) :
  evaluate_image initial im = Failed d e ->
  d = initial
  \/ (exists m : metrics,
        d = State [precision m] [recall m] 1 []
        /\ line_print im = Some e
        /\ evaluate_image initial (with_line_print None im)
           = Done (State [precision m] [recall m] 1
                     [ImageLine (name im) m; ClearMemory])).
Proof.
  unfold evaluate_image. cbn [with_line_print label_file imread model
                              line_print name].
  destruct (label_file im) as [lines|]; [|discriminate].
  destruct (load_labels lines) as [gt_labels|e'];
    [|intros [= <- <-]; left; reflexivity].
  destruct (len gt_labels =? 0); [discriminate|].
  destruct (imread im) as [[img_h img_w]|]; [|discriminate].
  destruct (model im) as [pred_boxes|e'];
    [|intros [= <- <-]; left; reflexivity].
  destruct (len pred_boxes =? 0); [discriminate|].
  destruct (match_boxes _ pred_boxes) as [matches|e'];
    [|intros [= <- <-]; left; reflexivity].
  destruct (line_print im) as [e'|]; [|discriminate].
  intros [= <- <-]. right. eexists. repeat split; reflexivity.
Qed.

Lemma final_events_app (a b : list event) :
  final_events (a ++ b) = final_events a ++ final_events b.
Proof. apply filter_app. Qed.

Lemma image_events_app (a b : list event) :
  image_events (a ++ b) = image_events a ++ image_events b.
Proof. apply filter_app. Qed.

Lemma final_events_emit (ev : event) (st : state) :
  is_final_event ev = false ->
  final_events (trace (emit ev st)) = final_events (trace st).
Proof.
  intros Hev. unfold emit, final_events. simpl.
  rewrite filter_app, filter_cons, filter_nil.
  destruct (decide (is_final_event ev = true)) as [E|_]; [congruence|].
  apply app_nil_r.
Qed.

(** One image, not interrupted: its own line is the only line that ends an
    image in what it adds to the trace. *)
Lemma process_image_initial (im : image) :
  interrupted im = false ->
  exists d, process_image initial im = Completed d
            /\ image_events (trace d) = [outcome_event im].
Proof.
  unfold interrupted, outcome_event, process_image. intros Hint.
  destruct (evaluate_image initial im) as [d|d e] eqn:E.
  - exists d. split; [reflexivity|].
    destruct (evaluate_image_initial_trace im d E) as (ev & Hev & [->| ->]);
      unfold image_events; simpl; rewrite !filter_cons, filter_nil;
      destruct (decide (is_image_event ev = true)); try contradiction;
      simpl; try reflexivity;
      destruct (decide (false = true)); try discriminate; reflexivity.
  - apply negb_false_iff in Hint. rewrite Hint.
    eexists. split; [reflexivity|].
    destruct (evaluate_image_initial_failed im d e E) as [->|(m & -> & _)];
      reflexivity.
Qed.

(** No image adds a line of the final report to the trace. *)
Lemma process_image_no_final (st : state) (im : image) :
  final_events (trace (flow_state (process_image st im)))
  = final_events (trace st).
Proof.
  unfold process_image. rewrite evaluate_image_frame.
  destruct (evaluate_image initial im) as [d|d e] eqn:E0.
  - simpl. rewrite final_events_app.
    destruct (evaluate_image_initial_trace im d E0) as (ev & Hev & [->| ->]);
      destruct ev; try discriminate; rewrite app_nil_r; reflexivity.
  - assert (Hd : trace (combine st d) = trace st).
    { destruct (evaluate_image_initial_failed im d e E0)
        as [->|(m & -> & _)]; unfold combine; simpl; apply app_nil_r. }
    destruct (is_Exception e); cbn [flow_state].
    + rewrite final_events_emit by reflexivity. rewrite Hd. reflexivity.
    + rewrite Hd. reflexivity.
Qed.

Lemma image_loop_no_final (l : list image) :
  forall st : state,
    final_events (trace (flow_state (image_loop st l)))
    = final_events (trace st).
Proof.
  induction l as [|im rest IH]; intros st; simpl; [reflexivity|].
  pose proof (process_image_no_final st im) as H.
  destruct (process_image st im) as [st'|st']; simpl in H.
  - rewrite IH. exact H.
  - exact H.
Qed.

Lemma batch_loop_no_final (image_paths : list image) (total_batches : Z)
    (indices : list nat) :
  forall st : state,
    final_events
      (trace (flow_state (batch_loop image_paths total_batches st indices)))
    = final_events (trace st).
Proof.
  induction indices as [|b rest IH]; intros st; simpl; [reflexivity|].
  unfold process_batch.
  set (st0 := emit (BatchHeader _ total_batches) (clear_memory st)).
  assert (E0 : final_events (trace st0) = final_events (trace st)).
  { unfold st0, clear_memory. rewrite !final_events_emit; reflexivity. }
  pose proof (image_loop_no_final
                (take batch_size (drop b image_paths)) st0) as H.
  destruct (image_loop st0 _) as [st'|st']; cbn [flow_state] in H.
  - rewrite IH. unfold clear_memory.
    rewrite final_events_emit by reflexivity. congruence.
  - cbn [flow_state]. congruence.
Qed.

(** ** The run: the lists and the counter *)

Lemma tally_essence (st : state) : tally (essence st) = tally st.
Proof. reflexivity. Qed.

Lemma evaluate_tally (image_paths : list image) :
  tally (evaluate image_paths)
  = tally (flow_state (image_loop initial image_paths)).
Proof.
  rewrite <- tally_essence, evaluate_essence, tally_essence. reflexivity.
Qed.

Lemma evaluate_image_events (image_paths : list image) :
  image_events (trace (evaluate image_paths))
  = image_events (trace (flow_state (image_loop initial image_paths))).
Proof.
  pose proof (evaluate_essence image_paths) as H.
  apply (f_equal trace) in H. exact H.
Qed.

Lemma flow_state_map (g : state -> state) (f : flow) :
  flow_state (flow_map g f) = g (flow_state f).
Proof. destruct f; reflexivity. Qed.

Lemma tally_combine (a a' d : state) :
  tally a = tally a' -> tally (combine a d) = tally (combine a' d).
Proof.
  unfold tally, combine. simpl. intros [= -> -> ->]. reflexivity.
Qed.

(** The image loop started in two states with the same lists and counter
    ends with the same lists and counter. *)
Lemma image_loop_tally (l : list image) (st st' : state) :
  tally st = tally st' ->
  tally (flow_state (image_loop st l))
  = tally (flow_state (image_loop st' l)).
Proof.
  intros E. rewrite (image_loop_frame l st), (image_loop_frame l st').
  rewrite !flow_state_map. apply tally_combine. exact E.
Qed.

(** A caught exception leaves the variables as it finds them. *)
Lemma process_image_caught (st : state) (im : image) (d : state) (e : exn) :
  evaluate_image initial im = Failed d e -> is_Exception e = true ->
  process_image st im
  = Completed (emit (ImageError (name im) e) (combine st d)).
Proof.
  intros Hraise Hexc. unfold process_image.
  rewrite evaluate_image_frame, Hraise, Hexc. reflexivity.
Qed.

(** An exception raised before the three assignments: the run ends with
    the lists and the counter of the run without the image. *)
Lemma image_loop_without (pre post : list image) (bad : image) (e : exn) :
  evaluate_image initial bad = Failed initial e -> is_Exception e = true ->
  tally (flow_state (image_loop initial (pre ++ bad :: post)))
  = tally (flow_state (image_loop initial (pre ++ post))).
Proof.
  intros Hraise Hexc. rewrite !image_loop_app.
  destruct (image_loop initial pre) as [st|st]; [|reflexivity].
  simpl. rewrite (process_image_caught st bad initial e Hraise Hexc).
  apply image_loop_tally. rewrite combine_initial_r. reflexivity.
Qed.

(** An exception raised by the print of the metrics line: the run ends
    with the lists and the counter of the run in which the line is
    printed. *)
Lemma image_loop_garbled (pre post : list image) (bad : image)
    (d d' : state) (e : exn) :
  evaluate_image initial bad = Failed d e -> is_Exception e = true ->
  evaluate_image initial (with_line_print None bad) = Done d' ->
  tally d = tally d' ->
  tally (flow_state (image_loop initial (pre ++ bad :: post)))
  = tally (flow_state
             (image_loop initial (pre ++ with_line_print None bad :: post))).
Proof.
  intros Hraise Hexc Hdone Htally. rewrite !image_loop_app.
  destruct (image_loop initial pre) as [st|st]; [|reflexivity].
  simpl. rewrite (process_image_caught st bad d e Hraise Hexc).
  replace (process_image st (with_line_print None bad))
    with (Completed (combine st d'))
    by (unfold process_image; rewrite evaluate_image_frame, Hdone;
        reflexivity).
  apply image_loop_tally. unfold tally, emit, combine. simpl.
  unfold tally in Htally. injection Htally as -> -> ->. reflexivity.
Qed.

(** Without an interruption, the lines that end an image are the lines of
    the images, one for each, in order. *)
Lemma image_loop_events (l : list image) :
  Forall (fun im => interrupted im = false) l ->
  exists d, image_loop initial l = Completed d
            /\ image_events (trace d) = map outcome_event l.
Proof.
  induction l as [|im rest IH]; intros Hall.
  - exists initial. split; reflexivity.
  - apply Forall_cons in Hall as [Him Hrest].
    destruct (process_image_initial im Him) as (d & Hd & Hev).
    destruct (IH Hrest) as (d' & Hd' & Hev').
    exists (combine d d'). simpl. rewrite Hd, image_loop_frame, Hd'.
    split; [reflexivity|].
    unfold combine. simpl. rewrite image_events_app, Hev, Hev'.
    reflexivity.
Qed.

(** The [finally] block runs once, after the loop: its lines are the last
    lines of the trace, and the only ones of their kind. *)
Lemma evaluate_final_events (image_paths : list image) :
  let run := evaluate image_paths in
  final_events (trace run)
  = [ if 0 <? valid_images run
      then Means (sum (all_precisions run)
                  / inject_Z (len (all_precisions run)))
                 (sum (all_recalls run) / inject_Z (len (all_recalls run)))
      else NoValidImage;
      Concluded ].
Proof.
  unfold evaluate.
  pose proof (batch_loop_no_final image_paths
                ((len image_paths + Z.of_nat batch_size - 1)
                 / Z.of_nat batch_size)
                (range_step (length image_paths) batch_size) initial) as H.
  assert (Hfin : forall st, final_events (trace st) = [] ->
            final_events (trace (finalize st))
            = [ if 0 <? valid_images (finalize st)
                then Means (sum (all_precisions (finalize st))
                            / inject_Z (len (all_precisions (finalize st))))
                           (sum (all_recalls (finalize st))
                            / inject_Z (len (all_recalls (finalize st))))
                else NoValidImage;
                Concluded ]).
  { intros st Hst. unfold finalize.
    destruct (0 <? valid_images st) eqn:E; unfold emit; simpl;
      rewrite E, !final_events_app, Hst; reflexivity. }
  destruct (batch_loop image_paths _ initial _) as [st|st];
    cbn [flow_state] in H; cbv zeta; apply Hfin.
  - exact H.
  - rewrite final_events_emit by reflexivity. exact H.
Qed.

Lemma counted_combine (a b : state) :
  counted a -> counted b -> counted (combine a b).
Proof.
  unfold counted, combine, len. simpl. rewrite !length_app. lia.
Qed.

Lemma evaluate_image_counted (im : image) :
  counted (attempt_state (evaluate_image initial im)).
Proof.
  unfold evaluate_image.
  repeat match goal with
    | |- context [match ?c with _ => _ end] =>
        match c with
        | context [match _ with _ => _ end] => fail 1
        | _ => destruct c
        end
    end; unfold counted, len; simpl; lia.
Qed.

Lemma image_loop_counted (l : list image) :
  counted (flow_state (image_loop initial l)).
Proof.
  induction l as [|im rest IH]; simpl.
  - unfold counted, len. simpl. lia.
  - unfold process_image.
    pose proof (evaluate_image_counted im) as Hc.
    destruct (evaluate_image initial im) as [d|d e] eqn:E; simpl in Hc.
    + rewrite image_loop_frame, flow_state_map.
      apply counted_combine; [exact Hc|exact IH].
    + destruct (is_Exception e).
      * rewrite image_loop_frame, flow_state_map.
        apply counted_combine; [exact Hc|exact IH].
      * exact Hc.
Qed.

Lemma evaluate_counted (image_paths : list image) :
  counted (evaluate image_paths).
Proof.
  pose proof (evaluate_tally image_paths) as H.
  pose proof (image_loop_counted image_paths) as Hc.
  unfold tally in H. injection H as H1 H2 H3.
  unfold counted. rewrite H1, H2, H3. exact Hc.
Qed.

Lemma sum_total (l : list Q) : sum l = total_from 0 l.
Proof.
  unfold sum. generalize 0%Q. induction l as [|q rest IH]; intros acc.
  - reflexivity.
  - simpl. apply IH.
Qed.

(** C2, as the code has it.  An image whose processing raises an exception
    (one that derives from [Exception]) does not stop the run.  The script
    reaches its [finally] block; the exception is caught, and the run goes
    on from the variables as the exception found them; when no other image
    is interrupted, every image of the list, the ones after the failing one
    included, ends with its own line, the failing one with its error line.
    When the exception comes before the three assignments, the lists and
    the counter at the end are those of the run without the failing image.
    Otherwise the exception is that of the print of the metrics line, and
    the lists and the counter are those of the run in which that line is
    printed: the image counts in the means.  The final report is printed
    exactly once, after the loop: the arithmetic means of the two lists,
    which are then not empty, when [valid_images > 0], and the notice that
    no image was valid otherwise. *)
Theorem failed_image_caught (pre post : list image) (bad : image)
    (d : state) (e : exn) :
  evaluate_image initial bad = Failed d e ->
  is_Exception e = true ->
  let run := evaluate (pre ++ bad :: post) in
  script (pre ++ bad :: post) = Some run
  /\ (forall st, process_image st bad
                 = Completed (emit (ImageError (name bad) e) (combine st d)))
  /\ (Forall (fun im => interrupted im = false) (pre ++ post) ->
      image_events (trace run)
      = map outcome_event pre
        ++ ImageError (name bad) e :: map outcome_event post)
  /\ (d = initial -> tally run = tally (evaluate (pre ++ post)))
  /\ (d <> initial ->
      line_print bad = Some e
      /\ tally run
         = tally (evaluate (pre ++ with_line_print None bad :: post)))
  /\ (0 < valid_images run ->
      final_events (trace run)
      = [Means (arithmetic_mean (all_precisions run))
               (arithmetic_mean (all_recalls run));
         Concluded]
      /\ 0 < len (all_precisions run) /\ 0 < len (all_recalls run))
  /\ (valid_images run <= 0 ->
      final_events (trace run) = [NoValidImage; Concluded]).
Proof.
  intros Hraise Hexc run.
  split; [destruct pre; reflexivity|].
  split; [intros st; apply process_image_caught; assumption|].
  split; [|split; [|split; [|split]]].
  - intros Hall. unfold run. rewrite evaluate_image_events.
    assert (Hall' : Forall (fun im => interrupted im = false)
                      (pre ++ bad :: post)).
    { apply Forall_app in Hall as [Hpre Hpost].
      apply Forall_app. split; [assumption|].
      apply Forall_cons. split; [|assumption].
      unfold interrupted. rewrite Hraise, Hexc. reflexivity. }
    destruct (image_loop_events _ Hall') as (d' & -> & Hev).
    cbn [flow_state]. rewrite Hev, map_app. cbn [map].
    unfold outcome_event at 2.
    rewrite Hraise. reflexivity.
  - intros ->. unfold run. rewrite !evaluate_tally.
    eapply image_loop_without; eassumption.
  - intros Hd.
    destruct (evaluate_image_initial_failed bad d e Hraise)
      as [->|(m & -> & Hprint & Hdone)]; [contradiction|].
    split; [exact Hprint|].
    unfold run. rewrite !evaluate_tally.
    eapply image_loop_garbled; try eassumption. reflexivity.
  - intros Hvalid.
    pose proof (evaluate_final_events (pre ++ bad :: post)) as Hfin.
    cbv zeta in Hfin. fold run in Hfin.
    apply Z.ltb_lt in Hvalid as Hb. rewrite Hb, !sum_total in Hfin.
    split; [exact Hfin|].
    destruct (evaluate_counted (pre ++ bad :: post)) as [H1 H2].
    fold run in H1, H2. lia.
  - intros Hvalid.
    pose proof (evaluate_final_events (pre ++ bad :: post)) as Hfin.
    cbv zeta in Hfin. fold run in Hfin.
    apply Z.ltb_ge in Hvalid. rewrite Hvalid in Hfin. exact Hfin.
Qed.

Lemma failed_image_caught_witness :
  let early := evaluate [found_image "1"; failing_image "2";
                         undetected_image "3"; found_image "4"] in
  let late := evaluate [found_image "1"; garbled_image "2";
                        undetected_image "3"; found_image "4"] in
  (image_events (trace early)
   = [outcome_event (found_image "1"); ImageError "2" RuntimeError;
      outcome_event (undetected_image "3"); outcome_event (found_image "4")]
   /\ tally early
      = tally (evaluate [found_image "1"; undetected_image "3";
                         found_image "4"])
   /\ final_events (trace early)
      = [Means (arithmetic_mean (all_precisions early))
               (arithmetic_mean (all_recalls early)); Concluded])
  /\ (image_events (trace late)
      = [outcome_event (found_image "1"); ImageError "2" ValueError;
         outcome_event (undetected_image "3");
         outcome_event (found_image "4")]
      /\ tally late
         = tally (evaluate [found_image "1"; with_line_print None (garbled_image "2");
                            undetected_image "3"; found_image "4"])
      /\ final_events (trace late)
         = [Means (arithmetic_mean (all_precisions late))
                  (arithmetic_mean (all_recalls late)); Concluded]).
Proof.
  split.
  - destruct (failed_image_caught [found_image "1"]
                [undetected_image "3"; found_image "4"]
                (failing_image "2") initial RuntimeError)
      as (_ & _ & Hev & Hsame & _ & Hmeans & _); [reflexivity ..|].
    split; [apply Hev; repeat constructor|].
    split; [apply Hsame; reflexivity|].
    apply Hmeans. vm_compute. reflexivity.
  - destruct (failed_image_caught [found_image "1"]
                [undetected_image "3"; found_image "4"]
                (garbled_image "2")
                (State [1 # 2] [1 # 1] 1 []) ValueError)%Q
      as (_ & _ & Hev & _ & Hsame & Hmeans & _); [reflexivity ..|].
    split; [apply Hev; repeat constructor|].
    split; [apply Hsame; discriminate|].
    apply Hmeans. vm_compute. reflexivity.
Defined.

(** C2, as the claim states it, fails: the image "b" has one ground-truth
    box, which the model finds, and a second detection; the print of its
    metrics line raises an exception, which is caught and reported; the
    lists and the counter have the precision 1/2 and the recall 1 of "b", and
    the mean precision reported is 3/4, where the image "a" alone gives
    1. *)
Lemma failed_image_counted :
  let run := evaluate [found_image "a"; garbled_image "b"] in
  (exists d, evaluate_image initial (garbled_image "b") = Failed d ValueError)
  /\ is_Exception ValueError = true
  /\ image_events (trace run)
     = [ImageLine "a" (image_metrics 1 1 1); ImageError "b" ValueError]
  /\ all_precisions run = all_precisions (evaluate [found_image "a"])
                          ++ [(1 # 2)%Q]
  /\ valid_images run = 2
  /\ (exists mp mr : Q,
        final_events (trace run) = [Means mp mr; Concluded]
        /\ (mp == 3 # 4)%Q)
  /\ (exists mp mr : Q,
        final_events (trace (evaluate [found_image "a"]))
        = [Means mp mr; Concluded]
        /\ (mp == 1)%Q).
Proof.
  cbv zeta.
  split; [eexists; vm_compute; reflexivity|].
  split; [reflexivity|].
  split; [vm_compute; reflexivity|].
  split; [vm_compute; reflexivity|].
  split; [vm_compute; reflexivity|].
  split; eexists; eexists; (split; [vm_compute; reflexivity|]);
    vm_compute; reflexivity.
Qed.

(** ** Label files *)

Lemma map_float_raises (parts : list field) (e : exn) :
  map_float parts = Raise e -> e = ValueError.
Proof.
  induction parts as [|f rest IH]; simpl; [discriminate|].
  destruct f as [v|s]; simpl; [|congruence].
  destruct (map_float rest) as [vs|e']; [discriminate|].
  intros [= <-]. apply IH. reflexivity.
Qed.

Lemma map_float_text (parts : list field) (s : string) :
  Text s ∈ parts -> map_float parts = Raise ValueError.
Proof.
  induction parts as [|f rest IH]; intros Hin.
  - apply elem_of_nil in Hin. contradiction.
  - simpl. destruct f as [v|s']; simpl; [|reflexivity].
    apply elem_of_cons in Hin as [Hin|Hin]; [discriminate|].
    rewrite (IH Hin). reflexivity.
Qed.

Lemma unpack_label_raises (parts : list field) (e : exn) :
  unpack_label parts = Raise e -> e = ValueError.
Proof.
  unfold unpack_label.
  destruct (map_float parts) as [vs|e'] eqn:E.
  - do 6 (try destruct vs as [|? vs]); congruence.
  - intros [= <-]. eapply map_float_raises. exact E.
Qed.

Lemma parse_record_unpack (parts : list field) (row : label) :
  parse_record parts = Some row ->
  length parts = 5%nat /\ unpack_label parts = Ok row.
Proof.
  unfold parse_record. intros H.
  do 6 (try destruct parts as [|[?|?] parts]); try discriminate.
  injection H as <-. split; reflexivity.
Qed.

Lemma parse_record_short (parts : list field) :
  (length parts < 5)%nat -> parse_record parts = None.
Proof.
  intros Hlen. destruct (parse_record parts) as [row|] eqn:E; [|reflexivity].
  apply parse_record_unpack in E as [E _]. lia.
Qed.

Lemma load_lines_clean (lines : list (list field)) :
  Forall clean_record lines ->
  forall labels,
    load_lines lines labels = Ok (labels ++ omap parse_record lines).
Proof.
  induction 1 as [|parts rest Hclean _ IH]; intros labels; simpl.
  - rewrite app_nil_r. reflexivity.
  - destruct Hclean as [Hshort|[row Hrow]].
    + rewrite (parse_record_short parts Hshort).
      replace (5 <=? Z.of_nat (length parts)) with false
        by (symmetry; apply Z.leb_gt; lia).
      apply IH.
    + rewrite Hrow. apply parse_record_unpack in Hrow as [Hlen ->].
      rewrite Hlen. simpl. rewrite IH, <- app_assoc. reflexivity.
Qed.

Lemma load_lines_non_numeric (lines : list (list field)) :
  Exists non_numeric_record lines ->
  forall labels, load_lines lines labels = Raise ValueError.
Proof.
  induction 1 as [parts rest [Hlen [s Hs]]|parts rest _ IH];
    intros labels; simpl.
  - rewrite Hlen. simpl. unfold unpack_label.
    rewrite (map_float_text parts s Hs). reflexivity.
  - destruct (5 <=? Z.of_nat (length parts)); [|apply IH].
    destruct (unpack_label parts) as [row|e] eqn:E; [apply IH|].
    rewrite (unpack_label_raises parts e E). reflexivity.
Qed.

(** C4, as the code has it.  When every record of the file has fewer than
    five fields or exactly five numeric fields, the loader returns the rows
    of the five-field records, in order, and drops the others.  A record
    of five fields one of which is not numeric is not dropped: the whole
    load raises [ValueError]. *)
Theorem load_labels_records (lines : list (list field)) :
  (Forall clean_record lines ->
   load_labels lines = Ok (omap parse_record lines))
  /\ (Exists non_numeric_record lines ->
      load_labels lines = Raise ValueError).
Proof.
  split; intros H.
  - apply (load_lines_clean lines H []).
  - apply load_lines_non_numeric. exact H.
Qed.

(** C4, as the claim states it, fails: a file whose first record has a
    non-numeric field and whose second record is well formed is not loaded
    as the second record alone; the load raises. *)
Lemma load_labels_non_numeric_raises :
  load_labels [text_label; centre_label] = Raise ValueError
  /\ load_labels [text_label; centre_label]
     <> Ok [Label 0 (1 # 2) (1 # 2) (1 # 5) (1 # 5)].
Proof. split; [reflexivity | discriminate]. Qed.

(** ** The image without detections *)

(** C1 on the code.  A run over one image with one ground-truth box and no
    detection appends 0 to both lists but leaves [valid_images] at 0, and
    the final report says that no image was valid. *)
Theorem undetected_image_not_counted :
  script [undetected_image "b"]
  = Some (State [0%Q] [0%Q] 0
            [ClearMemory; BatchHeader 1 1; NoPrediction "b"; ClearMemory;
             NoValidImage; Concluded]).
Proof. reflexivity. Qed.

Lemma load_labels_records_witness :
  load_labels [[Number 1]; centre_label]
  = Ok (omap parse_record [[Number 1]; centre_label])
  /\ load_labels [text_label; centre_label] = Raise ValueError.
Proof.
  split.
  - apply (proj1 (load_labels_records [[Number 1]; centre_label])).
    constructor; [left; simpl; lia|].
    constructor; [|constructor].
    right. eexists. reflexivity.
  - apply (proj2 (load_labels_records [text_label; centre_label])).
    apply Exists_cons_hd. split; [reflexivity|].
    exists "abc". unfold text_label.
    apply elem_of_cons. right. apply elem_of_cons. right.
    apply elem_of_cons. left. reflexivity.
Defined.

(** ** Memory reclamation *)

Lemma trace_combine (a b : state) :
  trace (combine a b) = trace a ++ trace b.
Proof. reflexivity. Qed.

(** C8, as the code has it.  [clear_memory] is called at the start of
    every batch and at the end of every batch that is not interrupted, and
    right after the metrics line of every image that is evaluated with at
    least one detection, when that line is printed.  On every other path
    the processing of an image adds its own line to the trace and no call
    of [clear_memory]: an image skipped for a missing label, an empty label
    or a decode failure, an image without detection, and an image whose
    processing raises an exception that is caught. *)
Theorem reclamation_points (image_paths : list image) (total_batches : Z)
    (st : state) (batch_idx : nat) (im : image) :
  (let batch_paths := take batch_size (drop batch_idx image_paths) in
   let header :=
     BatchHeader (Z.of_nat (batch_idx / batch_size) + 1) total_batches in
   let lines := trace (flow_state (image_loop initial batch_paths)) in
   match process_batch image_paths total_batches st batch_idx with
   | Completed st' =>
       trace st' = trace st ++ [ClearMemory; header] ++ lines ++ [ClearMemory]
   | Interrupt st' =>
       trace st' = trace st ++ [ClearMemory; header] ++ lines
   end)
  /\ (forall lines gt_labels img_h img_w pred_boxes matches,
        label_file im = Some lines ->
        load_labels lines = Ok gt_labels ->
        imread im = Some (img_h, img_w) ->
        model im = Ok pred_boxes ->
        0 < len (yolo_to_xyxy gt_labels img_w img_h) ->
        0 < len pred_boxes ->
        match_boxes (yolo_to_xyxy gt_labels img_w img_h) pred_boxes
        = Ok matches ->
        line_print im = None ->
        exists st' m,
          process_image st im = Completed st'
          /\ trace st' = trace st ++ [ImageLine (name im) m; ClearMemory])
  /\ (label_file im = None ->
      process_image st im = Completed (emit (NoLabel (name im)) st))
  /\ (forall lines,
        label_file im = Some lines -> load_labels lines = Ok [] ->
        process_image st im = Completed (emit (EmptyLabel (name im)) st))
  /\ (forall lines gt_labels,
        label_file im = Some lines -> load_labels lines = Ok gt_labels ->
        gt_labels <> [] -> imread im = None ->
        process_image st im = Completed (emit (ReadFailure (name im)) st))
  /\ (forall lines gt_labels img_h img_w,
        label_file im = Some lines -> load_labels lines = Ok gt_labels ->
        gt_labels <> [] -> imread im = Some (img_h, img_w) ->
        model im = Ok [] ->
        exists st',
          process_image st im = Completed st'
          /\ trace st' = trace st ++ [NoPrediction (name im)])
  /\ (forall d e,
        evaluate_image initial im = Failed d e -> is_Exception e = true ->
        exists st',
          process_image st im = Completed st'
          /\ trace st' = trace st ++ [ImageError (name im) e]).
Proof.
  assert (Hlen : forall gt_labels : list label,
            gt_labels <> [] -> (len gt_labels =? 0) = false).
  { intros gt_labels Hne. apply Z.eqb_neq. unfold len.
    destruct gt_labels; [congruence|]. simpl. lia. }
  split; [|split; [|split; [|split; [|split; [|split]]]]].
  - cbv zeta. unfold process_batch.
    rewrite image_loop_frame.
    destruct (image_loop initial (take batch_size (drop batch_idx image_paths)))
      as [d|d]; cbn [flow_map flow_state];
      unfold clear_memory, emit; simpl; rewrite <- !app_assoc; reflexivity.
  - intros lines gt_labels img_h img_w pred_boxes matches
      Hfile Hload Hread Hmodel HG HP Hmatch Hprint.
    unfold process_image.
    rewrite (evaluate_image_evaluated st im lines gt_labels img_h img_w
               pred_boxes matches Hfile Hload Hread Hmodel HG HP Hmatch).
    rewrite Hprint.
    eexists. eexists. split; [reflexivity|].
    simpl. rewrite <- app_assoc. reflexivity.
  - intros Hfile. unfold process_image, evaluate_image. rewrite Hfile.
    reflexivity.
  - intros lines Hfile Hload. unfold process_image, evaluate_image.
    rewrite Hfile, Hload. reflexivity.
  - intros lines gt_labels Hfile Hload Hne Hread.
    unfold process_image, evaluate_image. rewrite Hfile, Hload, Hread.
    rewrite (Hlen gt_labels Hne). reflexivity.
  - intros lines gt_labels img_h img_w Hfile Hload Hne Hread Hmodel.
    unfold process_image, evaluate_image.
    rewrite Hfile, Hload, Hread, Hmodel, (Hlen gt_labels Hne).
    eexists. split; reflexivity.
  - intros d e Hraise Hexc.
    rewrite (process_image_caught st im d e Hraise Hexc).
    eexists. split; [reflexivity|].
    destruct (evaluate_image_initial_failed im d e Hraise)
      as [->|(m & -> & _)]; unfold emit, combine; simpl;
      rewrite app_nil_r; reflexivity.
Qed.

(** C8, as the claim states it, fails: in a batch of two images whose first
    has no label file, the line of the first image is followed by the line
    of the second, not by a call of [clear_memory]. *)
Lemma skipped_image_without_reclamation :
  trace (evaluate [unlabelled_image "a"; found_image "b"])
  = [ClearMemory; BatchHeader 1 1; NoLabel "a";
     ImageLine "b" (Metrics 1 0 0 1 1); ClearMemory; ClearMemory;
     Means 1 1; Concluded]
  /\ cleared_after_images
       (trace (evaluate [unlabelled_image "a"; found_image "b"])) = false.
Proof. split; vm_compute; reflexivity. Qed.

Lemma reclamation_points_witness :
  let image_paths :=
    [unlabelled_image "a"; found_image "b"; empty_image "c";
     unreadable_image "d"; undetected_image "e"; failing_image "f";
     garbled_image "g"] in
  (exists st',
     process_batch image_paths 2 initial 5 = Completed st'
     /\ trace st'
        = [ClearMemory; BatchHeader 2 2; ImageError "f" RuntimeError;
           ImageError "g" ValueError; ClearMemory])
  /\ (exists st' m,
        process_image initial (found_image "b") = Completed st'
        /\ trace st' = [ImageLine "b" m; ClearMemory])
  /\ process_image initial (unlabelled_image "a")
     = Completed (emit (NoLabel "a") initial)
  /\ process_image initial (empty_image "c")
     = Completed (emit (EmptyLabel "c") initial)
  /\ process_image initial (unreadable_image "d")
     = Completed (emit (ReadFailure "d") initial)
  /\ (exists st',
        process_image initial (undetected_image "e") = Completed st'
        /\ trace st' = [NoPrediction "e"])
  /\ (exists st',
        process_image initial (garbled_image "g") = Completed st'
        /\ trace st' = [ImageError "g" ValueError]).
Proof.
  intros image_paths.
  pose proof (reclamation_points image_paths 2 initial 5) as points.
  split; [|split; [|split; [|split; [|split; [|split]]]]].
  - pose proof (proj1 (points (found_image "b"))) as H. cbv zeta in H.
    destruct (process_batch image_paths 2 initial 5) as [st'|st'] eqn:E;
      [|vm_compute in E; discriminate].
    exists st'. split; [reflexivity|]. rewrite H. vm_compute. reflexivity.
  - destruct (points (found_image "b")) as (_ & H & _).
    apply (H [centre_label] [Label 0 (1 # 2) (1 # 2) (1 # 5) (1 # 5)]
             100 100 [Box 40 40 60 60] [(0, 0)]); vm_compute; reflexivity.
  - destruct (points (unlabelled_image "a")) as (_ & _ & H & _).
    apply H. reflexivity.
  - destruct (points (empty_image "c")) as (_ & _ & _ & H & _).
    apply (H []); reflexivity.
  - destruct (points (unreadable_image "d")) as (_ & _ & _ & _ & H & _).
    apply (H [centre_label] [Label 0 (1 # 2) (1 # 2) (1 # 5) (1 # 5)]);
      [reflexivity | reflexivity | discriminate | reflexivity].
  - destruct (points (undetected_image "e")) as (_ & _ & _ & _ & _ & H & _).
    apply (H [centre_label] [Label 0 (1 # 2) (1 # 2) (1 # 5) (1 # 5)]
             100 100);
      [reflexivity | reflexivity | discriminate | reflexivity | reflexivity].
  - destruct (points (garbled_image "g")) as (_ & _ & _ & _ & _ & _ & H).
    apply (H (State [1 # 2] [1 # 1] 1 [])%Q); reflexivity.
Defined.

(** * Further properties *)

(** ** Conversion of the labels *)

Lemma inject_Z_pos (n : Z) : 0 < n -> (0 < inject_Z n)%Q.
Proof.
  intros H. change 0%Q with (inject_Z 0). rewrite <- Zlt_Qlt. exact H.
Qed.

Lemma scaled_interval (c r n : Q) :
  (0 < n)%Q -> (0 <= r)%Q -> ((c - r / 2) * n <= (c + r / 2) * n)%Q.
Proof.
  intros Hn H.
  assert (E : ((c + r / 2) * n - (c - r / 2) * n == r * n)%Q) by field.
  assert (Hrn : (0 <= r * n)%Q) by (apply Qmult_le_0_compat; lra).
  lra.
Qed.

Lemma yolo_boxes_well_formed (labels : list label) (img_w img_h : Z) :
  0 < img_w -> 0 < img_h -> Forall nonneg_label labels ->
  Forall well_formed (yolo_to_xyxy labels img_w img_h).
Proof.
  intros Hw Hh Hall. apply inject_Z_pos in Hw, Hh.
  unfold yolo_to_xyxy. rewrite List.Forall_map.
  eapply Forall_impl; [exact Hall|].
  intros l [Hx Hy]. unfold well_formed. simpl. split.
  - apply (scaled_interval (cx l) (lw l) (inject_Z img_w) Hw). exact Hx.
  - apply (scaled_interval (cy l) (lh l) (inject_Z img_h) Hh). exact Hy.
Qed.



(** ** More on the intersection over union *)

Lemma intersection_nonneg (a b : box) : (0 <= intersection a b)%Q.
Proof.
  unfold intersection. apply Qmult_le_0_compat; apply py_max_0_nonneg.
Qed.

Lemma side_positive (lo hi lo' hi' : Q) :
  (0 < py_min hi hi' - py_max lo lo')%Q ->
  (lo < hi)%Q /\ (lo < hi')%Q /\ (lo' < hi)%Q /\ (lo' < hi')%Q.
Proof.
  destruct (py_min_cases hi hi') as [[? ->]|[? ->]],
           (py_max_cases lo lo') as [[? ->]|[? ->]];
    intros; repeat split; lra.
Qed.

Lemma clamp_product_positive (w h : Q) :
  (0 < py_max 0 w * py_max 0 h)%Q -> (0 < w)%Q /\ (0 < h)%Q.
Proof.
  destruct (py_max_cases 0 w) as [[Hw ->]|[Hw ->]],
           (py_max_cases 0 h) as [[Hh ->]|[Hh ->]]; intros H.
  - split; assumption.
  - exfalso. assert (E : (w * 0 == 0)%Q) by ring. lra.
  - exfalso. assert (E : (0 * h == 0)%Q) by ring. lra.
  - exfalso. assert (E : (0 * 0 == 0)%Q) by ring. lra.
Qed.

Lemma intersection_positive (a b : box) :
  (0 < intersection a b)%Q -> share_area a b.
Proof.
  unfold intersection, share_area. intros H.
  apply clamp_product_positive in H as [Hw Hh].
  split; apply side_positive; assumption.
Qed.

Lemma compute_iou_finite_inv (a b : box) (q : Q) :
  compute_iou a b = Ok (Finite q) ->
  ~ (area a + area b - intersection a b + eps == 0)%Q
  /\ q = (intersection a b
          / (area a + area b - intersection a b + eps))%Q.
Proof.
  rewrite compute_iou_unfold. unfold iou_of. fold (intersection a b).
  destruct (Qeq_bool (area a + area b - intersection a b + eps) 0) eqn:E.
  - destruct (_ || _); [|discriminate].
    destruct (Qeq_bool (intersection a b) 0); discriminate.
  - intros [= <-]. qcases. split; [assumption|reflexivity].
Qed.

Lemma Qdiv_zero (n d : Q) : (n == 0)%Q -> (n / d == 0)%Q.
Proof. intros ->. unfold Qdiv. ring. Qed.

(** X2.  When the IoU of two boxes is a positive number, the boxes share
    some area: on each axis every lower edge of the two boxes is strictly
    below every upper edge.  Boxes that only touch, or a box without area,
    give no positive IoU. *)
Theorem compute_iou_positive (a b : box) (q : Q) :
  compute_iou a b = Ok (Finite q) -> (0 < q)%Q -> share_area a b.
Proof.
  intros Hq Hpos.
  apply compute_iou_finite_inv in Hq as [Hd ->].
  apply intersection_positive.
  pose proof (intersection_nonneg a b) as H0.
  destruct (Qlt_le_dec 0 (intersection a b)) as [H|H]; [exact H|].
  exfalso. rewrite Qdiv_zero in Hpos by lra. lra.
Qed.

Lemma compute_iou_positive_witness :
  share_area (Box 40 40 60 60) (Box 50 50 70 70).
Proof.
  apply (compute_iou_positive (Box 40 40 60 60) (Box 50 50 70 70)
           (100 / (400 + 400 - 100 + eps)));
    [vm_compute; reflexivity | vm_compute; reflexivity].
Defined.

Lemma above_threshold (n d : Q) :
  (0 < d)%Q ->
  py_gt (Finite (n / d)) iou_threshold = true <-> (d < 2 * n)%Q.
Proof.
  intros Hd. unfold iou_threshold. simpl. rewrite Qltb_lt. split; intros H.
  - destruct (Qlt_le_dec d (2 * n)) as [Hlt|Hge]; [exact Hlt|].
    exfalso.
    assert (Hle : (n / d <= 1 # 2)%Q).
    { apply Qle_shift_div_r; [assumption|]. lra. }
    lra.
  - apply Qlt_shift_div_l; [assumption|]. lra.
Qed.

(** ** More on the matcher *)

Lemma greedy_pairs pred_boxes i gt_boxes used_pred matches :
  greedy pred_boxes i gt_boxes used_pred matches ->
  Forall (fun m =>
            exists (n k : nat) (g p : box) (v : pyfloat),
              m = (i + Z.of_nat n, Z.of_nat k)
              /\ gt_boxes !! n = Some g /\ pred_boxes !! k = Some p
              /\ compute_iou g p = Ok v
              /\ py_gt v iou_threshold = true) matches.
Proof.
  induction 1 as [i used
                 |i g rest used k v ms Hbest Hthr Hrec IH
                 |i g rest used ms Hnone Hrec IH].
  - constructor.
  - constructor.
    + destruct Hbest as ((p & Hp & _ & Hv) & _).
      exists 0%nat, k, g, p, v. repeat split; try assumption.
      f_equal. lia.
    + eapply Forall_impl; [exact IH|].
      intros m (n & k' & g' & p' & v' & -> & Hg & Hp & Hv & Ht).
      exists (S n), k', g', p', v'. repeat split; try assumption.
      f_equal. lia.
  - eapply Forall_impl; [exact IH|].
    intros m (n & k' & g' & p' & v' & -> & Hg & Hp & Hv & Ht).
    exists (S n), k', g', p', v'. repeat split; try assumption.
    f_equal. lia.
Qed.

Lemma greedy_sorted pred_boxes i gt_boxes used_pred matches :
  greedy pred_boxes i gt_boxes used_pred matches ->
  StronglySorted Z.lt matches.*1.
Proof.
  induction 1 as [i used
                 |i g rest used k v ms Hbest Hthr Hrec IH
                 |i g rest used ms Hnone Hrec IH]; simpl.
  - constructor.
  - constructor; [exact IH|].
    destruct (greedy_shape _ _ _ _ _ Hrec) as (Hall & _).
    apply Forall_fmap. eapply Forall_impl; [exact Hall|].
    intros m (Hm & _). simpl. lia.
  - exact IH.
Qed.

(** X8.  Every match the matcher returns pairs an existing ground-truth box
    with an existing detection (no index is negative or past the end, in
    particular the initial [best_pred = -1] is never recorded) whose IoU is
    above 0.5, and the matches come in increasing order of ground-truth
    index.  (The matcher fails only on a division by zero.) *)
Theorem match_boxes_sound (gt_boxes pred_boxes : list box) :
  match match_boxes gt_boxes pred_boxes with
  | Ok matches =>
      StronglySorted Z.lt matches.*1
      /\ Forall (fun m =>
                   exists (n k : nat) (g p : box) (v : pyfloat),
                     m = (Z.of_nat n, Z.of_nat k)
                     /\ gt_boxes !! n = Some g /\ pred_boxes !! k = Some p
                     /\ compute_iou g p = Ok v
                     /\ py_gt v iou_threshold = true) matches
  | Raise e => e = ZeroDivisionError
  end.
Proof.
  pose proof (match_boxes_outcome gt_boxes pred_boxes) as H.
  destruct (match_boxes gt_boxes pred_boxes) as [ms|e]; [|apply H].
  split; [eapply greedy_sorted; exact H|].
  eapply Forall_impl; [apply (greedy_pairs _ _ _ _ _ H)|].
  intros m (n & k & g & p & v & -> & Hrest).
  exists n, k, g, p, v. split; [reflexivity|exact Hrest].
Qed.

Lemma greedy_maximal pred_boxes i gt_boxes used_pred matches :
  greedy pred_boxes i gt_boxes used_pred matches ->
  forall (n k : nat) (g p : box) (v : pyfloat),
    gt_boxes !! n = Some g -> pred_boxes !! k = Some p ->
    i + Z.of_nat n ∉ matches.*1 ->
    Z.of_nat k ∉ used_pred -> Z.of_nat k ∉ matches.*2 ->
    compute_iou g p = Ok v ->
    py_gt v iou_threshold = false.
Proof.
  induction 1 as [i used
                 |i g0 rest used k0 v0 ms Hbest Hthr Hrec IH
                 |i g0 rest used ms Hnone Hrec IH];
    intros n k g p v Hg Hp Hfree_gt Hunused Hfree_pred Hv.
  - destruct n; discriminate.
  - destruct n as [|n].
    + exfalso. apply Hfree_gt. simpl. apply elem_of_cons. left. lia.
    + simpl in Hg, Hfree_gt, Hfree_pred.
      apply not_elem_of_cons in Hfree_gt as [_ Hfree_gt].
      apply not_elem_of_cons in Hfree_pred as [Hne Hfree_pred].
      apply (IH n k g p v Hg Hp); try assumption.
      * replace (i + 1 + Z.of_nat n) with (i + Z.of_nat (S n)) by lia.
        exact Hfree_gt.
      * set_solver.
  - destruct n as [|n].
    + simpl in Hg. injection Hg as <-.
      apply (Hnone k v). exists p. repeat split; assumption.
    + simpl in Hg.
      apply (IH n k g p v Hg Hp); try assumption.
      replace (i + 1 + Z.of_nat n) with (i + Z.of_nat (S n)) by lia.
      exact Hfree_gt.
Qed.

(** X9.  The matching is maximal: when the matcher returns, no ground-truth
    box left without a match and detection left without a match have an
    IoU above 0.5, so no further pair could be added to the matches.  (The
    matcher fails only on a division by zero.) *)
Theorem match_boxes_maximal (gt_boxes pred_boxes : list box) :
  match match_boxes gt_boxes pred_boxes with
  | Ok matches =>
      forall (n k : nat) (g p : box) (v : pyfloat),
        gt_boxes !! n = Some g -> pred_boxes !! k = Some p ->
        Z.of_nat n ∉ matches.*1 -> Z.of_nat k ∉ matches.*2 ->
        compute_iou g p = Ok v ->
        py_gt v iou_threshold = false
  | Raise e => e = ZeroDivisionError
  end.
Proof.
  pose proof (match_boxes_outcome gt_boxes pred_boxes) as H.
  destruct (match_boxes gt_boxes pred_boxes) as [ms|e]; [|apply H].
  intros n k g p v Hg Hp Hn Hk Hv.
  apply (greedy_maximal _ _ _ _ _ H n k g p v); try assumption.
  set_solver.
Qed.

(** X10.  When no detection overlaps any ground-truth box (all boxes with
    [x1 <= x2] and [y1 <= y2]), the matcher returns no match, whatever the
    number of boxes. *)
Theorem match_boxes_apart (gt_boxes pred_boxes : list box) :
  Forall well_formed gt_boxes -> Forall well_formed pred_boxes ->
  (forall g p, g ∈ gt_boxes -> p ∈ pred_boxes -> apart g p) ->
  match_boxes gt_boxes pred_boxes = Ok [].
Proof.
  intros Hg Hp Hapart.
  destruct (match_boxes_total gt_boxes pred_boxes Hg Hp) as (ms & Hms).
  pose proof (match_boxes_outcome gt_boxes pred_boxes) as H.
  rewrite Hms in H. rewrite Hms. f_equal.
  destruct ms as [|m ms]; [reflexivity|exfalso].
  pose proof (greedy_pairs _ _ _ _ _ H) as Hpairs.
  apply Forall_cons in Hpairs as [(n & k & g & p & v & _ & Hgn & Hpk & Hv & Ht) _].
  apply list_elem_of_lookup_2 in Hgn, Hpk.
  rewrite Forall_forall in Hg, Hp.
  pose proof (Hg g Hgn) as Hwg. pose proof (Hp p Hpk) as Hwp.
  rewrite (compute_iou_well_formed g p Hwg Hwp) in Hv.
  injection Hv as <-.
  destruct (intersection_bounds g p Hwg Hwp) as (H0 & H1 & H2).
  apply above_threshold in Ht; [|unfold eps; lra].
  rewrite (intersection_apart g p Hwg Hwp (Hapart g p Hgn Hpk)) in Ht.
  unfold eps in Ht. lra.
Qed.

Lemma match_boxes_apart_witness :
  match_boxes [Box 40 40 60 60] [Box 70 70 90 90] = Ok [].
Proof.
  apply (match_boxes_apart [Box 40 40 60 60] [Box 70 70 90 90]).
  - repeat constructor; vm_compute; discriminate.
  - repeat constructor; vm_compute; discriminate.
  - intros g p Hg Hp.
    apply list_elem_of_singleton in Hg as ->.
    apply list_elem_of_singleton in Hp as ->.
    left. vm_compute. discriminate.
Defined.

(** ** More on the metrics of an image *)

Lemma int_div_one (n d : Z) : 0 < d -> (int_div n d == 1)%Q <-> n = d.
Proof.
  intros Hd. pose proof (inject_Z_pos d Hd) as Hd'. unfold int_div. split.
  - intros H. apply inject_Z_injective.
    assert (E : (inject_Z n == inject_Z n / inject_Z d * inject_Z d)%Q)
      by (field; lra).
    rewrite E, H. ring.
  - intros ->. field. lra.
Qed.

Lemma int_div_zero (n d : Z) : 0 < d -> (int_div n d == 0)%Q <-> n = 0.
Proof.
  intros Hd. pose proof (inject_Z_pos d Hd) as Hd'. unfold int_div. split.
  - intros H. apply inject_Z_injective.
    assert (E : (inject_Z n == inject_Z n / inject_Z d * inject_Z d)%Q)
      by (field; lra).
    rewrite E, H. ring.
  - intros ->. unfold Qdiv. ring.
Qed.

(** X11.  For an image with [G > 0] ground-truth boxes and [P > 0]
    detections the two guards of the metrics never apply: [tp + fp] is [P]
    and [tp + fn] is [G], so the precision is [M / P] and the recall is
    [M / G].  The precision is 1 exactly when every detection is matched,
    the recall is 1 exactly when every ground-truth box is matched, and
    both are 0 exactly when there is no match. *)
Theorem image_metrics_ratios (G P M : Z) :
  0 < G -> 0 < P ->
  let m := image_metrics G P M in
  tp m + fp m = P /\ tp m + fn m = G
  /\ precision m = int_div M P /\ recall m = int_div M G
  /\ ((precision m == 1)%Q <-> M = P) /\ ((recall m == 1)%Q <-> M = G)
  /\ ((precision m == 0)%Q <-> M = 0) /\ ((recall m == 0)%Q <-> M = 0).
Proof.
  intros HG HP. simpl.
  replace (M + (P - M)) with P by lia.
  replace (M + (G - M)) with G by lia.
  replace (0 <? P) with true by (symmetry; apply Z.ltb_lt; exact HP).
  replace (0 <? G) with true by (symmetry; apply Z.ltb_lt; exact HG).
  repeat split; try reflexivity;
    first [apply int_div_one | apply int_div_zero]; assumption.
Qed.

Lemma image_metrics_ratios_witness :
  let m := image_metrics 4 5 3 in
  tp m + fp m = 5 /\ tp m + fn m = 4
  /\ precision m = int_div 3 5 /\ recall m = int_div 3 4
  /\ ((precision m == 1)%Q <-> 3 = 5) /\ ((recall m == 1)%Q <-> 3 = 4)
  /\ ((precision m == 0)%Q <-> 3 = 0) /\ ((recall m == 0)%Q <-> 3 = 0).
Proof. apply (image_metrics_ratios 4 5 3); lia. Defined.

(** ** More on the run *)

Lemma skipped_image_line (im : image) :
  skipped im ->
  exists ev, forall st, process_image st im = Completed (emit ev st).
Proof.
  intros [Hfile|[(lines & Hfile & Hload)|(lines & gt & Hfile & Hload & Hread)]].
  - exists (NoLabel (name im)). intros st.
    unfold process_image, evaluate_image. rewrite Hfile. reflexivity.
  - exists (EmptyLabel (name im)). intros st.
    unfold process_image, evaluate_image. rewrite Hfile, Hload. reflexivity.
  - exists (if len gt =? 0 then EmptyLabel (name im)
            else ReadFailure (name im)).
    intros st. unfold process_image, evaluate_image.
    rewrite Hfile, Hload, Hread. destruct (len gt =? 0); reflexivity.
Qed.

Lemma image_loop_neutral (pre post : list image) (im : image) (ev : event) :
  (forall st, process_image st im = Completed (emit ev st)) ->
  tally (flow_state (image_loop initial (pre ++ im :: post)))
  = tally (flow_state (image_loop initial (pre ++ post))).
Proof.
  intros Hstep. rewrite !image_loop_app.
  destruct (image_loop initial pre) as [st|st]; [|reflexivity].
  simpl. rewrite Hstep. apply image_loop_tally. reflexivity.
Qed.

(** X12.  A skipped image (no label file, a label file without a label, or
    an image that cannot be decoded) changes nothing in the result: the two
    lists and [valid_images] at the end of the run are those of the run
    without this image. *)
Theorem skipped_image_neutral (pre post : list image) (im : image) :
  skipped im ->
  tally (evaluate (pre ++ im :: post)) = tally (evaluate (pre ++ post)).
Proof.
  intros Hskip. destruct (skipped_image_line im Hskip) as (ev & Hev).
  rewrite !evaluate_tally. eapply image_loop_neutral. exact Hev.
Qed.

Lemma skipped_image_neutral_witness :
  tally (evaluate ([found_image "1"] ++ unlabelled_image "2"
                   :: [found_image "3"]))
  = tally (evaluate ([found_image "1"] ++ [found_image "3"])).
Proof.
  apply (skipped_image_neutral [found_image "1"] [found_image "3"]
           (unlabelled_image "2")).
  left. reflexivity.
Defined.

Lemma image_loop_interrupted (pre post : list image) (stop : image)
    (d : state) (e : exn) :
  Forall (fun im => interrupted im = false) pre ->
  evaluate_image initial stop = Failed d e -> is_Exception e = false ->
  image_loop initial (pre ++ stop :: post)
  = Interrupt (combine (flow_state (image_loop initial pre)) d).
Proof.
  intros Hpre Hraise Hexc. rewrite image_loop_app.
  destruct (image_loop_events pre Hpre) as (st & -> & _).
  simpl. unfold process_image.
  rewrite evaluate_image_frame, Hraise, Hexc. reflexivity.
Qed.

Lemma evaluate_interrupt (image_paths : list image) (d : state) :
  image_loop initial image_paths = Interrupt d ->
  exists st, evaluate image_paths = finalize (emit Interrupted st).
Proof.
  intros Hloop. unfold evaluate.
  pose proof (batch_loop_essence image_paths
                ((len image_paths + Z.of_nat batch_size - 1)
                 / Z.of_nat batch_size)
                (range_step (length image_paths) batch_size) initial) as H.
  fold (batches image_paths) in H. rewrite batches_concat, Hloop in H.
  destruct (batch_loop image_paths _ initial _) as [st|st];
    [discriminate|].
  exists st. reflexivity.
Qed.

(** X13.  When the user interrupts the run at the call of the model on
    an image or at the print of its metrics line (the exception raised
    there does not derive from [Exception]), no image before it being
    interrupted, no later image is processed: the lines of the images are
    those of the run over the images before it.  The lists and the counter
    are those of that run when the interruption comes before the three
    assignments; when it comes at the print, after them, the lists have
    the precision and the recall of the interrupted image as well, and
    the counter counts it.  The interruption is reported once and the
    final report still follows: the trace ends with the interruption
    notice, the report and the closing line. *)
Theorem interrupted_run (pre post : list image) (stop : image)
    (d : state) (e : exn) :
  Forall (fun im => interrupted im = false) pre ->
  evaluate_image initial stop = Failed d e ->
  is_Exception e = false ->
  let run := evaluate (pre ++ stop :: post) in
  tally run = tally (combine (evaluate pre) d)
  /\ (d = initial
      \/ exists m : metrics,
           d = State [precision m] [recall m] 1 []
           /\ line_print stop = Some e)
  /\ image_events (trace run) = image_events (trace (evaluate pre))
  /\ exists body,
       trace run = body ++ [Interrupted; report run; Concluded].
Proof.
  intros Hpre Hraise Hexc run.
  pose proof (image_loop_interrupted pre post stop d e Hpre Hraise Hexc)
    as Hloop.
  assert (Hd : d = initial
               \/ exists m : metrics,
                    d = State [precision m] [recall m] 1 []
                    /\ line_print stop = Some e).
  { destruct (evaluate_image_initial_failed stop d e Hraise)
      as [->|(m & -> & Hprint & _)]; [left; reflexivity|].
    right. exists m. split; [reflexivity|exact Hprint]. }
  split; [|split; [exact Hd|split]].
  - unfold run. rewrite evaluate_tally, Hloop. cbn [flow_state].
    apply tally_combine. symmetry. apply evaluate_tally.
  - unfold run. rewrite !evaluate_image_events, Hloop. cbn [flow_state].
    rewrite trace_combine, image_events_app.
    destruct Hd as [->|(m & -> & _)]; simpl; apply app_nil_r.
  - destruct (evaluate_interrupt _ _ Hloop) as (st & Hrun).
    unfold run. rewrite Hrun. exists (trace st).
    unfold finalize, report.
    destruct (0 <? valid_images (emit Interrupted st)) eqn:E;
      unfold emit in *; simpl in *; rewrite E, <- !app_assoc; reflexivity.
Qed.

Lemma interrupted_run_witness :
  let stop := with_line_print (Some KeyboardInterrupt) (found_image "2") in
  let run := evaluate ([found_image "1"] ++ stop :: [found_image "3"]) in
  all_precisions run = all_precisions (evaluate [found_image "1"])
                       ++ [precision (image_metrics 1 1 1)]
  /\ valid_images run = 2
  /\ image_events (trace run)
     = image_events (trace (evaluate [found_image "1"]))
  /\ exists body,
       trace run = body ++ [Interrupted; report run; Concluded].
Proof.
  intros stop run.
  destruct (interrupted_run [found_image "1"] [found_image "3"] stop
              (State [precision (image_metrics 1 1 1)]
                     [recall (image_metrics 1 1 1)] 1 [])
              KeyboardInterrupt)
    as (Htally & _ & Hev & Hend);
    [repeat constructor | reflexivity | reflexivity |].
  split; [exact (f_equal (fun t => fst (fst t)) Htally)|].
  split; [exact (f_equal snd Htally)|].
  split; [exact Hev|exact Hend].
Defined.

Lemma evaluate_fields (image_paths : list image) :
  all_precisions (evaluate image_paths)
  = all_precisions (flow_state (image_loop initial image_paths))
  /\ all_recalls (evaluate image_paths)
     = all_recalls (flow_state (image_loop initial image_paths))
  /\ valid_images (evaluate image_paths)
     = valid_images (flow_state (image_loop initial image_paths)).
Proof.
  pose proof (evaluate_tally image_paths) as H. unfold tally in H.
  injection H as H1 H2 H3. repeat split; assumption.
Qed.

(** X14.  The result of a run over two lists of images put end to end is
    the result of the first run followed by that of the second, unless the
    first is interrupted: the lists are appended and the counters added.
    In particular the cutting into batches has no effect on the result. *)
Theorem evaluate_app (l1 l2 : list image) :
  Forall (fun im => interrupted im = false) l1 ->
  all_precisions (evaluate (l1 ++ l2))
  = all_precisions (evaluate l1) ++ all_precisions (evaluate l2)
  /\ all_recalls (evaluate (l1 ++ l2))
     = all_recalls (evaluate l1) ++ all_recalls (evaluate l2)
  /\ valid_images (evaluate (l1 ++ l2))
     = valid_images (evaluate l1) + valid_images (evaluate l2).
Proof.
  intros Hall.
  destruct (evaluate_fields (l1 ++ l2)) as (-> & -> & ->).
  destruct (evaluate_fields l1) as (-> & -> & ->).
  destruct (evaluate_fields l2) as (-> & -> & ->).
  destruct (image_loop_events l1 Hall) as (d & Hd & _).
  rewrite image_loop_app, Hd, image_loop_frame, flow_state_map.
  repeat split; reflexivity.
Qed.

Lemma evaluate_app_witness :
  all_precisions (evaluate ([found_image "1"; failing_image "2"]
                            ++ [undetected_image "3"]))
  = all_precisions (evaluate [found_image "1"; failing_image "2"])
    ++ all_precisions (evaluate [undetected_image "3"])
  /\ all_recalls (evaluate ([found_image "1"; failing_image "2"]
                            ++ [undetected_image "3"]))
     = all_recalls (evaluate [found_image "1"; failing_image "2"])
       ++ all_recalls (evaluate [undetected_image "3"])
  /\ valid_images (evaluate ([found_image "1"; failing_image "2"]
                             ++ [undetected_image "3"]))
     = valid_images (evaluate [found_image "1"; failing_image "2"])
       + valid_images (evaluate [undetected_image "3"]).
Proof.
  apply (evaluate_app [found_image "1"; failing_image "2"]
           [undetected_image "3"]).
  repeat constructor.
Defined.

(** X15.  In a run that is not interrupted every image ends with exactly
    one line, its own (a warning for a skipped image, the notice of an
    image without prediction, the metrics of an evaluated image, or the
    error of a failed image), and these lines come in the order of the
    images. *)
Theorem evaluate_image_lines (image_paths : list image) :
  Forall (fun im => interrupted im = false) image_paths ->
  image_events (trace (evaluate image_paths))
  = map outcome_event image_paths
  /\ Forall (fun ev => is_image_event ev = true)
            (map outcome_event image_paths).
Proof.
  intros Hall. rewrite evaluate_image_events.
  destruct (image_loop_events image_paths Hall) as (d & -> & Hev).
  split; [exact Hev|].
  rewrite <- Hev. unfold image_events.
  apply Forall_forall. intros ev Hin.
  apply list_elem_of_filter in Hin as [H _]. exact H.
Qed.

Lemma evaluate_image_lines_witness :
  image_events
    (trace (evaluate [found_image "1"; unlabelled_image "2";
                      failing_image "3"]))
  = map outcome_event
      [found_image "1"; unlabelled_image "2"; failing_image "3"]
  /\ Forall (fun ev => is_image_event ev = true)
            (map outcome_event
               [found_image "1"; unlabelled_image "2"; failing_image "3"]).
Proof.
  apply (evaluate_image_lines
           [found_image "1"; unlabelled_image "2"; failing_image "3"]).
  repeat constructor.
Defined.

(** ** The means *)

Lemma fold_sum_bounds (l : list Q) :
  Forall unit_interval l ->
  forall a : Q,
    (a <= fold_left Qplus l a)%Q
    /\ (fold_left Qplus l a <= a + inject_Z (len l))%Q.
Proof.
  induction 1 as [|q l [Hq0 Hq1] _ IH]; intros a; cbn [fold_left].
  - change (inject_Z (len [])) with 0%Q. split; lra.
  - destruct (IH (a + q)%Q) as [H1 H2].
    assert (E : (inject_Z (len (q :: l)) == inject_Z (len l) + 1)%Q).
    { unfold len. simpl length. rewrite Nat2Z.inj_succ, <- Z.add_1_r.
      rewrite inject_Z_plus. reflexivity. }
    rewrite E. split; lra.
Qed.

Lemma mean_unit (l : list Q) :
  Forall unit_interval l -> 0 < len l ->
  unit_interval (sum l / inject_Z (len l)).
Proof.
  intros Hall Hlen. destruct (fold_sum_bounds l Hall 0) as [H0 H1].
  pose proof (inject_Z_pos _ Hlen) as Hpos. unfold sum. split.
  - apply Qle_shift_div_l; [assumption|]. lra.
  - apply Qle_shift_div_r; [assumption|]. lra.
Qed.

Lemma evaluate_image_unit (im : image) :
  let d := attempt_state (evaluate_image initial im) in
  Forall unit_interval (all_precisions d)
  /\ Forall unit_interval (all_recalls d).
Proof.
  assert (Hzero : unit_interval 0) by (split; lra).
  unfold evaluate_image.
  destruct (label_file im) as [lines|]; [|split; constructor].
  destruct (load_labels lines) as [gt_labels|e]; [|split; constructor].
  destruct (len gt_labels =? 0); [split; constructor|].
  destruct (imread im) as [[img_h img_w]|]; [|split; constructor].
  destruct (model im) as [pred_boxes|e]; [|split; constructor].
  destruct (len pred_boxes =? 0); [split; repeat constructor; lra|].
  pose proof (match_boxes_outcome (yolo_to_xyxy gt_labels img_w img_h)
                pred_boxes) as Hout.
  destruct (match_boxes _ pred_boxes) as [matches|e]; [|split; constructor].
  destruct (greedy_count _ _ _ Hout) as (HG & HP).
  destruct (image_metrics_bounds _ (len pred_boxes) _ HG HP)
    as (_ & _ & Hp0 & Hp1 & Hr0 & Hr1).
  destruct (line_print im); split; repeat constructor; assumption.
Qed.

Lemma image_loop_unit (l : list image) :
  Forall unit_interval (all_precisions (flow_state (image_loop initial l)))
  /\ Forall unit_interval (all_recalls (flow_state (image_loop initial l))).
Proof.
  induction l as [|im rest [IHp IHr]]; simpl.
  - split; constructor.
  - unfold process_image.
    pose proof (evaluate_image_unit im) as [Hp Hr].
    destruct (evaluate_image initial im) as [d|d e] eqn:E; simpl in Hp, Hr.
    + rewrite image_loop_frame, flow_state_map. simpl.
      split; apply Forall_app; split; assumption.
    + destruct (is_Exception e).
      * rewrite image_loop_frame, flow_state_map. simpl.
        split; apply Forall_app; split; assumption.
      * split; assumption.
Qed.

(** X17.  In every run each precision and each recall in the two lists is
    between 0 and 1, and so are the two means whenever the run reports
    them. *)
Theorem evaluate_means_unit (image_paths : list image) :
  let run := evaluate image_paths in
  Forall unit_interval (all_precisions run)
  /\ Forall unit_interval (all_recalls run)
  /\ forall mean_precision mean_recall,
       Means mean_precision mean_recall ∈ trace run ->
       unit_interval mean_precision /\ unit_interval mean_recall.
Proof.
  intros run.
  destruct (image_loop_unit image_paths) as [Hp Hr].
  destruct (evaluate_fields image_paths) as (Ep & Er & _).
  fold run in Ep, Er. rewrite <- Ep in Hp. rewrite <- Er in Hr.
  split; [exact Hp|]. split; [exact Hr|].
  intros mp mr Hin.
  assert (Hfin : Means mp mr ∈ final_events (trace run)).
  { unfold final_events. apply list_elem_of_filter. split; [reflexivity|].
    exact Hin. }
  unfold run in Hfin. rewrite evaluate_final_events in Hfin. fold run in Hfin.
  destruct (evaluate_counted image_paths) as [Hv Hlen]. fold run in Hv, Hlen.
  destruct (0 <? valid_images run) eqn:E.
  - apply Z.ltb_lt in E.
    apply elem_of_cons in Hfin as [Heq|Hfin].
    + injection Heq as -> ->.
      split; apply mean_unit; try assumption; lia.
    + apply list_elem_of_singleton in Hfin. discriminate.
  - apply elem_of_cons in Hfin as [Heq|Hfin]; [discriminate|].
    apply list_elem_of_singleton in Hfin. discriminate.
Qed.

(** ** The batches and the whole trace *)

Lemma batch_count_bounds (n : nat) :
  let c := ((n + batch_size - 1) / batch_size)%nat in
  (n <= c * batch_size /\ c * batch_size < n + batch_size)%nat.
Proof.
  unfold batch_size. cbv zeta.
  pose proof (Nat.div_mod_eq (n + 5 - 1) 5) as Hdiv.
  pose proof (Nat.mod_upper_bound (n + 5 - 1) 5) as Hmod.
  lia.
Qed.

Lemma batches_lookup (l : list image) (k : nat) (b : list image) :
  batches l !! k = Some b ->
  (k < length (batches l))%nat
  /\ b = take batch_size (drop (k * batch_size) l).
Proof.
  intros H. split; [eapply lookup_lt_Some; exact H|].
  unfold batches, range_step in H.
  rewrite !list_lookup_fmap in H.
  destruct (seq 0 _ !! k) as [k'|] eqn:E; [|discriminate].
  apply lookup_seq in E as [-> _]. simpl in H. congruence.
Qed.

Lemma batches_length (l : list image) :
  length (batches l) = ((length l + batch_size - 1) / batch_size)%nat.
Proof.
  unfold batches, range_step. rewrite !length_map, length_seq. reflexivity.
Qed.

(** X18.  The batch loop cuts the image list into consecutive batches: put
    end to end the batches are the image list; their number is the number
    of images divided by 5 and rounded up; no batch is empty, none has more
    than 5 images, and every batch but the last has exactly 5. *)
Theorem batches_shape (image_paths : list image) :
  concat (batches image_paths) = image_paths
  /\ length (batches image_paths) = ((length image_paths + 4) / 5)%nat
  /\ forall (k : nat) (b : list image),
       batches image_paths !! k = Some b ->
       (0 < length b <= 5)%nat
       /\ ((S k < length (batches image_paths))%nat -> length b = 5%nat).
Proof.
  split; [apply batches_concat|].
  split; [rewrite batches_length; unfold batch_size; f_equal; lia|].
  intros k b Hb. apply batches_lookup in Hb as [Hk ->].
  rewrite batches_length in *.
  pose proof (batch_count_bounds (length image_paths)) as [H1 H2].
  rewrite length_take, length_drop. unfold batch_size in *. lia.
Qed.

Lemma image_loop_lines (b : list image) :
  Forall (fun im => interrupted im = false) b ->
  exists d, image_loop initial b = Completed d
            /\ trace d = concat (map image_lines b).
Proof.
  induction 1 as [|im rest Him _ (d' & Hd' & Htr')].
  - exists initial. split; reflexivity.
  - destruct (process_image_initial im Him) as (d & Hd & _).
    exists (combine d d'). simpl. rewrite Hd, image_loop_frame, Hd'.
    split; [reflexivity|].
    unfold image_lines at 1. rewrite Hd. simpl. rewrite Htr'. reflexivity.
Qed.

Lemma batch_loop_lines (image_paths : list image) (total_batches : Z) :
  Forall (fun im => interrupted im = false) image_paths ->
  forall (c a : nat) (st : state),
    exists st',
      batch_loop image_paths total_batches st
        (map (fun k => (k * batch_size)%nat) (seq a c))
      = Completed st'
      /\ tally st' = tally (flow_state (image_loop st
            (concat (map (fun k => take batch_size
                                     (drop (k * batch_size) image_paths))
                         (seq a c)))))
      /\ trace st'
         = trace st
           ++ concat (map (fun k =>
                             batch_lines total_batches k
                               (take batch_size
                                  (drop (k * batch_size) image_paths)))
                          (seq a c)).
Proof.
  intros Hall. induction c as [|c IH]; intros a st.
  - exists st. simpl. rewrite app_nil_r. repeat split; reflexivity.
  - cbn [seq map batch_loop concat]. unfold process_batch.
    rewrite (Nat.div_mul a batch_size) by (unfold batch_size; lia).
    set (batch := take batch_size (drop (a * batch_size) image_paths)).
    assert (Hbatch : Forall (fun im => interrupted im = false) batch)
      by (apply Forall_take, Forall_drop; exact Hall).
    destruct (image_loop_lines batch Hbatch) as (d & Hd & Htr).
    rewrite image_loop_frame, Hd. cbn [flow_map].
    rewrite image_loop_app, (image_loop_frame batch st), Hd. cbn [flow_map].
    match goal with
    | |- context [batch_loop _ _ ?s _] =>
        destruct (IH (S a) s) as (st' & Hloop & Htally & Htrace)
    end.
    exists st'. split; [exact Hloop|]. split.
    + rewrite Htally. apply image_loop_tally. reflexivity.
    + rewrite Htrace. unfold batch_lines at 2, clear_memory, emit, combine.
      simpl. rewrite Htr. fold batch. rewrite <- !app_assoc. reflexivity.
Qed.

Lemma imap_map_seq {A B : Type} (F : nat -> A -> B) (H : nat -> A) (c : nat) :
  imap F (map H (seq 0 c)) = map (fun k => F k (H k)) (seq 0 c).
Proof.
  change (map H (seq 0 c)) with (H <$> seq 0 c).
  rewrite imap_fmap.
  rewrite (imap_ext _ (fun k _ => F k (H k))).
  - rewrite imap_seq_0, length_seq. reflexivity.
  - intros i x Hx. apply lookup_seq in Hx as [-> _]. reflexivity.
Qed.

(** X19.  The trace of a run that is not interrupted is, batch after
    batch: a call of [clear_memory], the header with the number of the
    batch (from 1) and the number of batches, the lines of the images of
    the batch, and a call of [clear_memory]; then the report and the
    closing line.  The lines of an image are its own line, followed by a
    call of [clear_memory] when it is a metrics line and by nothing
    otherwise. *)
Theorem evaluate_trace (image_paths : list image) :
  Forall (fun im => interrupted im = false) image_paths ->
  let run := evaluate image_paths in
  trace run
  = concat (imap (batch_lines (len (batches image_paths)))
              (batches image_paths))
    ++ [report run; Concluded]
  /\ Forall (fun im =>
               image_lines im
               = outcome_event im
                 :: (if is_image_line (outcome_event im)
                     then [ClearMemory] else []))
            image_paths.
Proof.
  intros Hall run. split.
  - unfold run, evaluate.
    assert (HT : (len image_paths + Z.of_nat batch_size - 1)
                 / Z.of_nat batch_size = len (batches image_paths)).
    { unfold len. rewrite batches_length.
      rewrite Nat2Z.inj_div, Nat2Z.inj_sub, Nat2Z.inj_add
        by (unfold batch_size; lia).
      reflexivity. }
    rewrite HT. set (T := len (batches image_paths)). unfold range_step.
    destruct (batch_loop_lines image_paths T Hall
                ((length image_paths + batch_size - 1) / batch_size) 0
                initial) as (st & -> & _ & Htrace).
    unfold batches, range_step. rewrite map_map, imap_map_seq.
    change (trace initial) with (@nil event) in Htrace.
    cbn [app] in Htrace. rewrite <- Htrace.
    unfold finalize, report.
    destruct (0 <? valid_images st) eqn:E; unfold emit; simpl;
      rewrite E, <- app_assoc; reflexivity.
  - eapply Forall_impl; [exact Hall|]. intros im Him.
    unfold image_lines, outcome_event, process_image.
    unfold interrupted in Him.
    destruct (evaluate_image initial im) as [d|d e] eqn:E.
    + revert E. unfold evaluate_image.
      destruct (label_file im) as [lines|]; [|intros [= <-]; reflexivity].
      destruct (load_labels lines) as [gt_labels|e]; [|discriminate].
      destruct (len gt_labels =? 0); [intros [= <-]; reflexivity|].
      destruct (imread im) as [[img_h img_w]|];
        [|intros [= <-]; reflexivity].
      destruct (model im) as [pred_boxes|e]; [|discriminate].
      destruct (len pred_boxes =? 0); [intros [= <-]; reflexivity|].
      destruct (match_boxes _ pred_boxes) as [matches|e]; [|discriminate].
      destruct (line_print im) as [e|]; [discriminate|].
      intros [= <-]. reflexivity.
    + apply negb_false_iff in Him. rewrite Him.
      destruct (evaluate_image_initial_failed im d e E)
        as [->|(m & -> & _)]; reflexivity.
Qed.

Lemma evaluate_trace_witness :
  let l := [found_image "1"; unlabelled_image "2"; failing_image "3";
            undetected_image "4"; found_image "5"; found_image "6"] in
  let run := evaluate l in
  trace run
  = concat (imap (batch_lines (len (batches l))) (batches l))
    ++ [report run; Concluded]
  /\ Forall (fun im =>
               image_lines im
               = outcome_event im
                 :: (if is_image_line (outcome_event im)
                     then [ClearMemory] else []))
            l.
Proof.
  apply (evaluate_trace
           [found_image "1"; unlabelled_image "2"; failing_image "3";
            undetected_image "4"; found_image "5"; found_image "6"]).
  repeat constructor.
Defined.

(** ** More on the label files *)

Lemma unpack_label_parse (parts : list field) (row : label) :
  unpack_label parts = Ok row -> parse_record parts = Some row.
Proof.
  unfold unpack_label, parse_record.
  do 6 (try destruct parts as [|[?|?] parts]); simpl; try discriminate;
    try congruence.
  destruct (map_float parts); discriminate.
Qed.

Lemma load_lines_outcome (lines : list (list field)) :
  forall labels,
    match load_lines lines labels with
    | Ok rows =>
        Forall clean_record lines
        /\ rows = labels ++ omap parse_record lines
    | Raise e => e = ValueError /\ Exists rejected_record lines
    end.
Proof.
  induction lines as [|parts rest IH]; intros labels; simpl.
  - rewrite app_nil_r. split; [constructor|reflexivity].
  - destruct (5 <=? Z.of_nat (length parts)) eqn:Hlen.
    + apply Z.leb_le in Hlen.
      destruct (unpack_label parts) as [row|e] eqn:Hrow.
      * apply unpack_label_parse in Hrow. rewrite Hrow.
        specialize (IH (labels ++ [row])).
        destruct (load_lines rest (labels ++ [row])) as [rows|e].
        -- destruct IH as [Hclean ->]. split.
           ++ constructor; [right; eexists; exact Hrow|exact Hclean].
           ++ rewrite <- app_assoc. reflexivity.
        -- destruct IH as [-> Hex]. split; [reflexivity|].
           apply Exists_cons_tl. exact Hex.
      * split; [eapply unpack_label_raises; exact Hrow|].
        apply Exists_cons_hd. split; [lia|].
        destruct (parse_record parts) as [row|] eqn:Hparse; [|reflexivity].
        apply parse_record_unpack in Hparse as [_ Hparse]. congruence.
    + apply Z.leb_gt in Hlen.
      rewrite (parse_record_short parts) by lia.
      specialize (IH labels).
      destruct (load_lines rest labels) as [rows|e].
      * destruct IH as [Hclean ->]. split; [|reflexivity].
        constructor; [left; lia|exact Hclean].
      * destruct IH as [-> Hex]. split; [reflexivity|].
        apply Exists_cons_tl. exact Hex.
Qed.

(** X20.  [load_labels] returns exactly when every record of the file has
    fewer than five fields or exactly five numeric fields, and then it
    returns the rows of the five-field records in the order of the file.
    Otherwise it raises [ValueError], its only exception, and the file has
    a record of at least five fields that is not made of exactly five
    numeric fields; no label of the file is returned then. *)
Theorem load_labels_outcome (lines : list (list field)) :
  match load_labels lines with
  | Ok rows =>
      Forall clean_record lines /\ rows = omap parse_record lines
  | Raise e => e = ValueError /\ Exists rejected_record lines
  end.
Proof. apply (load_lines_outcome lines []). Qed.

Lemma load_lines_from (lines : list (list field)) :
  forall labels,
    load_lines lines labels
    = match load_lines lines [] with
      | Ok rows => Ok (labels ++ rows)
      | Raise e => Raise e
      end.
Proof.
  induction lines as [|parts rest IH]; intros labels; simpl.
  - rewrite app_nil_r. reflexivity.
  - destruct (5 <=? Z.of_nat (length parts)); [|apply IH].
    destruct (unpack_label parts) as [row|e]; [|reflexivity].
    rewrite (IH (labels ++ [row])), (IH [row]).
    destruct (load_lines rest []) as [rows|e]; [|reflexivity].
    rewrite <- app_assoc. reflexivity.
Qed.

Lemma load_lines_app (l1 l2 : list (list field)) :
  forall labels,
    load_lines (l1 ++ l2) labels
    = match load_lines l1 labels with
      | Ok rows => load_lines l2 rows
      | Raise e => Raise e
      end.
Proof.
  induction l1 as [|parts rest IH]; intros labels; simpl; [reflexivity|].
  destruct (5 <=? Z.of_nat (length parts)); [|apply IH].
  destruct (unpack_label parts) as [row|e]; [apply IH|reflexivity].
Qed.

(** X21.  Loading a file made of two parts gives the labels of the first
    part followed by the labels of the second; if the loading of the first
    part raises, or else that of the second, the whole loading raises the
    same exception. *)
Theorem load_labels_app (l1 l2 : list (list field)) :
  load_labels (l1 ++ l2)
  = match load_labels l1 with
    | Ok rows1 =>
        match load_labels l2 with
        | Ok rows2 => Ok (rows1 ++ rows2)
        | Raise e => Raise e
        end
    | Raise e => Raise e
    end.
Proof.
  unfold load_labels. rewrite load_lines_app.
  destruct (load_lines l1 []) as [rows1|e]; [|reflexivity].
  apply load_lines_from.
Qed.

(** ** An image with sound labels and detections *)

(** X23.  An image reaches the three assignments when its label file
    loads to at least one label, no label has a negative width or height,
    the image decodes to a positive width and height, and the model
    returns at least one box, all boxes with [x1 <= x2] and [y1 <= y2]:
    nothing raises before them.  Its precision and recall, both between 0
    and 1, are appended to the lists and [valid_images] grows by one.  Then
    its metrics line is printed, followed by a call of [clear_memory],
    unless the print raises. *)
Theorem sound_image_evaluated (st : state) (im : image)
    (lines : list (list field)) (gt_labels : list label) (img_h img_w : Z)
    (pred_boxes : list box) :
  label_file im = Some lines ->
  load_labels lines = Ok gt_labels ->
  gt_labels <> [] -> Forall nonneg_label gt_labels ->
  imread im = Some (img_h, img_w) -> 0 < img_h -> 0 < img_w ->
  model im = Ok pred_boxes ->
  pred_boxes <> [] -> Forall well_formed pred_boxes ->
  exists m : metrics,
    evaluate_image st im
    = match line_print im with
      | None =>
          Done (State (all_precisions st ++ [precision m])
                      (all_recalls st ++ [recall m])
                      (valid_images st + 1)
                      ((trace st ++ [ImageLine (name im) m])
                       ++ [ClearMemory]))
      | Some e =>
          Failed (State (all_precisions st ++ [precision m])
                        (all_recalls st ++ [recall m])
                        (valid_images st + 1)
                        (trace st)) e
      end
    /\ unit_interval (precision m) /\ unit_interval (recall m)
    /\ 0 <= tp m /\ 0 <= fp m /\ 0 <= fn m.
Proof.
  intros Hfile Hload Hne Hnonneg Hread Hh Hw Hmodel Hpne Hpwf.
  pose proof (yolo_boxes_well_formed gt_labels img_w img_h Hw Hh Hnonneg)
    as Hgwf.
  destruct (match_boxes_total _ _ Hgwf Hpwf) as (matches & Hmatch).
  pose proof (match_boxes_outcome (yolo_to_xyxy gt_labels img_w img_h)
                pred_boxes) as Hout.
  rewrite Hmatch in Hout.
  destruct (greedy_count _ _ _ Hout) as (HG & HP).
  destruct (image_metrics_bounds _ (len pred_boxes) _ HG HP)
    as (Hfp & Hfn & Hp0 & Hp1 & Hr0 & Hr1).
  assert (HGpos : 0 < len (yolo_to_xyxy gt_labels img_w img_h)).
  { unfold len, yolo_to_xyxy. rewrite length_map.
    destruct gt_labels; [congruence|]. simpl. lia. }
  assert (HPpos : 0 < len pred_boxes).
  { unfold len. destruct pred_boxes; [congruence|]. simpl. lia. }
  eexists. split.
  - apply (evaluate_image_evaluated st im lines gt_labels img_h img_w
             pred_boxes matches Hfile Hload Hread Hmodel HGpos HPpos
             Hmatch).
  - repeat split; try assumption. simpl. lia.
Qed.

Lemma sound_image_evaluated_witness :
  exists m : metrics,
    evaluate_image initial (garbled_image "a")
    = Failed (State ([] ++ [precision m]) ([] ++ [recall m]) (0 + 1) [])
        ValueError
    /\ unit_interval (precision m) /\ unit_interval (recall m)
    /\ 0 <= tp m /\ 0 <= fp m /\ 0 <= fn m.
Proof.
  apply (sound_image_evaluated initial (garbled_image "a") [centre_label]
           [Label 0 (1 # 2) (1 # 2) (1 # 5) (1 # 5)] 100 100
           [Box 40 40 60 60; Box 70 70 90 90]);
    try reflexivity; try discriminate; try lia;
    repeat constructor; vm_compute; discriminate.
Defined.
